(** * fms::lmm -- the LIBOR Market Model sampler of [fms_lmm.h]

    A shallow embedding of [struct lmm] and of its member functions
    [size], [reset] and [advance], followed by the properties of the
    sampled forward curve.

    Layout of the development:
    - [Arith]: the arithmetic the template needs from its numeric type;
    - [Driver]: the interface of [fms::brownian], whose header is not part
      of the sources at hand;
    - the state and failure monad [M] in which the member functions run;
    - [upper_bound], [advance] and the loop of [advance];
    - the numeric types: the real numbers, the kernel's binary64 floats
      and IEEE 754 arithmetic over an abstract rounding;
    - properties that hold for any numeric type;
    - the index and the formulas, over the real numbers;
    - overflow and NaN, on binary64 and in IEEE 754 arithmetic. *)

From Stdlib Require Import Reals Lra Lia Floats.
From stdpp Require Import base list.

Set Default Proof Using "Type".

(** ** Arithmetic of the template parameters

    [template<class T = double, class F = double> struct lmm] uses, on its
    numeric types, the operators [*], [-], [/], the comparison [<] (inside
    [std::upper_bound]), the function [exp] and the literal [2].  Times and
    rates are mixed freely in [advance] ([sigma[k]*sigma[k]*u/2]), so the two
    parameters are modelled by one type, as in the default instantiation. *)
Class Arith (F : Type) := {
  fmul : F -> F -> F;
  fsub : F -> F -> F;
  fdiv : F -> F -> F;
  fexp : F -> F;
  ftwo : F;
  flt : F -> F -> bool
}.

Declare Scope lmm_scope.
Delimit Scope lmm_scope with num.
Infix "*" := fmul : lmm_scope.
Infix "-" := fsub : lmm_scope.
Infix "/" := fdiv : lmm_scope.

(** ** The Brownian driver *)

(** Modelled from the spec: [fms_brownian.h] is not among the sources, so
    [fms::brownian] is taken as an interface.  A driver of dimension [d] can
    be built from a correlation, reset to time 0, advanced to a time [u]
    with a source of randomness (both are mutated), and read at a component
    [k]; the components realized at the current time are the list
    [brownian_at b], of length [d], and [B[k]] is its [k]-th entry. *)
Class Driver (F rng correlation brownian : Type) := {
  brownian_new : correlation -> brownian;
  brownian_reset : brownian -> brownian;
  brownian_advance : F -> rng -> brownian -> brownian * rng;
  brownian_at : brownian -> list F
}.

(** ** Failures

    [OutOfRange] is the exception raised by [ensure] in [advance].
    [BadAccess] stands for an unchecked access outside a container
    ([std::vector::operator[]], the raw pointer [f_], [B[k]]), which C++
    leaves undefined. *)
Inductive failure := OutOfRange | BadAccess.

Section Model.

Context {F rng correlation brownian : Type}.
Context `{!Arith F} `{!Driver F rng correlation brownian}.

(** ** The model *)
Record lmm := Lmm {
  t : list F;
  phi : list F;
  sigma : list F;
  B : brownian
}.

(** [lmm(n, t, phi, sigma, e)]: the first [n] entries of each array are
    copied, the driver is built from [e].  An array shorter than [n] would
    be read past its end. *)
Definition lmm_new (n : nat) (t0 phi0 sigma0 : list F) (e : correlation)
  : option lmm :=
  if (n <=? length t0) && (n <=? length phi0) && (n <=? length sigma0)
  then Some (Lmm (take n t0) (take n phi0) (take n sigma0) (brownian_new e))
  else None.

(** ** State and failure monad

    A member function runs on the model [self], the caller's buffer [f_]
    and the caller's random source [r].  The buffer is storage of the
    caller, apart from the vectors of the model.  A failure keeps the state
    reached when it was raised. *)
Record state := State {
  self : lmm;
  buf : list F;
  src : rng
}.

Definition M (A : Type) : Type := state -> (failure + A) * state.

Definition ret {A} (a : A) : M A := fun s => (inr a, s).

Definition bind {A C} (c : M A) (k : A -> M C) : M C :=
  fun s => match c s with
           | (inr a, s') => k a s'
           | (inl e, s') => (inl e, s')
           end.

Definition raise {A} (e : failure) : M A := fun s => (inl e, s).

Notation "x <- c ;; k" := (bind c (fun x => k))
  (at level 100, c at next level, right associativity).
Notation "c ;; k" := (bind c (fun _ => k))
  (at level 100, right associativity).

(** Modelled from the spec: the macro [ensure] comes from a header that is
    not among the sources; [ensure(cond)] goes on when [cond] holds and
    fails with [OutOfRange] otherwise. *)
Definition ensure (cond : bool) : M unit :=
  if cond then ret tt else raise OutOfRange.

(** Unchecked read [v[k]] of a container held by the state. *)
Definition read (v : state -> list F) (k : nat) : M F :=
  fun s => match v s !! k with
           | Some x => (inr x, s)
           | None => (inl BadAccess, s)
           end.

Definition t_at := read (fun s => t (self s)).
Definition phi_at := read (fun s => phi (self s)).
Definition sigma_at := read (fun s => sigma (self s)).
Definition B_at := read (fun s => brownian_at (B (self s))).
Definition f_at := read buf.

(** [f_[k] = x] *)
Definition f_set (k : nat) (x : F) : M unit :=
  fun s => if decide (k < length (buf s))
           then (inr tt, State (self s) (<[k:=x]> (buf s)) (src s))
           else (inl BadAccess, s).

(** The state once [B.advance(u, r)] has run: the driver and the random
    source are replaced, nothing else is. *)
Definition advanced (u : F) (s : state) : state :=
  let '(b, r) := brownian_advance u (src s) (B (self s)) in
  State (Lmm (t (self s)) (phi (self s)) (sigma (self s)) b) (buf s) r.

(** [B.advance(u, r)] *)
Definition B_advance (u : F) : M unit := fun s => (inr tt, advanced u s).

(** [B.reset()] *)
Definition B_reset : M unit :=
  fun s => (inr tt,
            State (Lmm (t (self s)) (phi (self s)) (sigma (self s))
                       (brownian_reset (B (self s))))
                  (buf s) (src s)).

(** [size_t size() const { return t.size(); }] *)
Definition size : M nat := fun s => (inr (length (t (self s))), s).

(** [void reset() { B.reset(); }] *)
Definition reset : M unit := B_reset.

(** ** [std::upper_bound]

    The binary search of the standard library over [first, first + len):
    [len] is halved while it is positive; the element in the middle is
    compared with [u < *middle].  [fuel] bounds the number of halvings and
    the length of the vector is always enough. *)
Fixpoint upper_bound_from (fuel : nat) (v : list F) (u : F)
    (first len : nat) : nat :=
  match fuel with
  | O => first
  | S fuel' =>
      if len =? 0 then first
      else
        let half := len / 2 in
        let middle := first + half in
        match v !! middle with
        | Some x =>
            if flt u x
            then upper_bound_from fuel' v u first half
            else upper_bound_from fuel' v u (S middle) (len - half - 1)
        | None => first
        end
  end.

(** [std::upper_bound(v.begin(), v.end(), u) - v.begin()] *)
Definition upper_bound (v : list F) (u : F) : nat :=
  upper_bound_from (length v) v u 0 (length v).

(** ** [advance] *)

(** The body of the loop of [advance] at index [k]. *)
Definition advance_body (u : F) (k : nat) : M unit :=
  phi_k <- phi_at k ;;
  sigma_k <- sigma_at k ;;
  B_k <- B_at k ;;
  (* futures *)
  f_set k (phi_k * fexp (sigma_k * B_k - sigma_k * sigma_k * u / ftwo))%num ;;
  (* forward convexity adjustment *)
  if 0 <? k then
    t_k1 <- t_at (k - 1) ;;
    let dt := (t_k1 - u)%num in
    sigma_k <- sigma_at k ;;
    f_k <- f_at k ;;
    f_set k (f_k - sigma_k * sigma_k * dt * dt / ftwo)%num
  else ret tt.

(** [for (size_t k = j; k < t.size(); ++k) body]: the body runs at
    [k, k+1, ...], [count] times, with [count = t.size() - j]. *)
Fixpoint advance_loop (u : F) (count k : nat) : M unit :=
  match count with
  | O => ret tt
  | S count' => advance_body u k ;; advance_loop u count' (S k)
  end.

(** [std::upper_bound(t.begin(), t.end(), u)], as an offset from
    [t.begin()]. *)
Definition t_upper_bound (u : F) : M nat :=
  fun s => (inr (upper_bound (t (self s)) u), s).

(** [size_t advance(T u, F* f_, R& r)]: populate [f_] with a sample
    forward curve at time [u] and return the index of the first
    [t[j] > u]. *)
Definition advance (u : F) : M nat :=
  tj <- t_upper_bound u ;;
  (* tj[-1] <= u < tj[0] *)
  n <- size ;;
  ensure (negb (tj =? n)) ;;
  let j := tj in
  B_advance u ;;
  n <- size ;;
  advance_loop u (n - j) j ;;
  ret j.

(** ** The value of one entry of the curve

    What the body of the loop leaves in [f_[k]], as a function of the model
    (its driver already advanced to [u]): the futures quote, and for
    [k > 0] the forward after the convexity adjustment. *)
Definition futures_at (m : lmm) (u : F) (k : nat) : option F :=
  phi_k ← phi m !! k;
  sigma_k ← sigma m !! k;
  B_k ← brownian_at (B m) !! k;
  Some (phi_k * fexp (sigma_k * B_k - sigma_k * sigma_k * u / ftwo))%num.

Definition forward_at (m : lmm) (u : F) (k : nat) : option F :=
  x ← futures_at m u k;
  if 0 <? k then
    t_k1 ← t m !! (k - 1);
    sigma_k ← sigma m !! k;
    Some (x - sigma_k * sigma_k * (t_k1 - u) * (t_k1 - u) / ftwo)%num
  else Some x.

(** The sequences of a constructed model have the length of its term
    structure. *)
Definition lmm_wf (m : lmm) : Prop :=
  length (phi m) = length (t m) /\ length (sigma m) = length (t m).

(** [std::upper_bound] requires its range to be partitioned by
    [u < element]: once the comparison holds it holds further on. *)
Definition partitioned (v : list F) (u : F) : Prop :=
  forall i j x y, i <= j -> v !! i = Some x -> v !! j = Some y ->
    flt u x = true -> flt u y = true.

(** ** Frames: what a computation leaves unchanged *)

(** The parameters [t], [phi], [sigma] of the model are the same in the
    final state, whatever the outcome. *)
Definition keeps_params {A} (c : M A) : Prop :=
  forall s, t (self (c s).2) = t (self s)
         /\ phi (self (c s).2) = phi (self s)
         /\ sigma (self (c s).2) = sigma (self s).

(** The only failure of the computation is an access out of bounds. *)
Definition never_throws {A} (c : M A) : Prop :=
  forall s e s', c s = (inl e, s') -> e = BadAccess.

End Model.

Arguments lmm : clear implicits.
Arguments state : clear implicits.
Arguments M : clear implicits.

(** ** The real numbers as numeric type

    The exact arithmetic that [double] approximates.  It has no rounding,
    no overflow and no NaN, so it serves for what does not depend on them:
    the order of the times and the transcription of the formulas.  The
    properties that do depend on them are stated on [ieee_arith] and
    [float_arith] below. *)
#[global] Instance Rlt_decision (x y : R) : Decision (x < y)%R := Rlt_dec x y.

(** [x < y] as a test *)
Definition Rltb (x y : R) : bool := bool_decide (x < y)%R.

Arguments Rltb : simpl never.

#[global] Instance R_arith : Arith R := {|
  fmul := Rmult;
  fsub := Rminus;
  fdiv := Rdiv;
  fexp := exp;
  ftwo := 2%R;
  flt := Rltb
|}.

(** [t[0] < t[1] < ... < t[n-1]] *)
Definition increasing (v : list R) : Prop :=
  forall i x y, v !! i = Some x -> v !! S i = Some y -> (x < y)%R.

(** [t[j-1]], with the convention [t[-1] = 0] of the header. *)
Definition t_before (v : list R) (j : nat) : option R :=
  match j with
  | O => Some 0%R
  | S i => v !! i
  end.

(** ** A scripted driver

    A driver for examples: its randomness is a script, the list of the
    component vectors to realize at the successive calls of [advance].  A
    vector of the wrong dimension is skipped and leaves the path as it
    is. *)
Record scripted := Scripted {
  now : R;
  path : list R
}.

#[global] Instance scripted_driver : Driver R (list (list R)) nat scripted := {|
  brownian_new := fun d => Scripted 0 (replicate d 0%R);
  brownian_reset := fun b => Scripted 0 (replicate (length (path b)) 0%R);
  brownian_advance := fun u r b =>
    match r with
    | [] => (Scripted u (path b), [])
    | w :: r' =>
        (Scripted u (if decide (length w = length (path b))
                     then w else path b), r')
    end;
  brownian_at := path
|}.

(** ** The models of the examples *)

Definition example_t : list R := [0; 1; 2]%R.
Definition example_phi : list R := [0.02; 0.03; 0.04]%R.
Definition example_sigma : list R := [0; 0.2; 0.25]%R.

(** The worked example, on a scripted driver of dimension 3 that realizes
    [B = [0, 0.1, 0.05]] at its first advance. *)
Definition example_lmm : lmm R scripted :=
  Lmm example_t example_phi example_sigma (brownian_new 3).

Definition example_state : state R (list (list R)) scripted :=
  State example_lmm [0; 0; 0]%R [[0; 0.1; 0.05]%R].

(** The same quotes on a driver of dimension 2. *)
Definition narrow_state : state R (list (list R)) scripted :=
  State (Lmm example_t example_phi example_sigma (brownian_new 2))
        [0; 0; 0]%R [[0.1; 0.05]%R].

(** A term structure that is not ordered. *)
Definition unsorted_state : state R (list (list R)) scripted :=
  State (Lmm [1; 5; 0]%R example_phi example_sigma (brownian_new 3))
        [0; 0; 0]%R [[0; 0.1; 0.05]%R].

(** A model without tenors. *)
Definition empty_state : state R (list (list R)) scripted :=
  State (Lmm [] [] [] (brownian_new 0)) [] [].

(** The worked example with a buffer of two entries. *)
Definition short_state : state R (list (list R)) scripted :=
  State example_lmm [0; 0]%R [[0; 0.1; 0.05]%R].

(** ** A scripted driver for any numeric type *)

Record script (F : Type) := Script {
  at_time : F;
  values : list F
}.

Arguments Script {F} _ _.
Arguments at_time {F} _.
Arguments values {F} _.

(** As [scripted_driver], with [zero] for the components at time 0. *)
Definition script_driver {F : Type} (zero : F)
  : Driver F (list (list F)) nat (script F) := {|
  brownian_new := fun d => Script zero (replicate d zero);
  brownian_reset := fun b => Script zero (replicate (length (values b)) zero);
  brownian_advance := fun u r b =>
    match r with
    | [] => (Script u (values b), [])
    | w :: r' =>
        (Script u (if decide (length w = length (values b))
                   then w else values b), r')
    end;
  brownian_at := values
|}.

(** ** Binary64 as numeric type

    The kernel's primitive floats are the binary64 numbers of [double],
    with the operations and the comparison of IEEE 754.  [exp] belongs to
    the C library and is not among them: it is a parameter [exp_d] of the
    instance. *)
Definition float_arith (exp_d : float -> float) : Arith float := {|
  fmul := PrimFloat.mul;
  fsub := PrimFloat.sub;
  fdiv := PrimFloat.div;
  fexp := exp_d;
  ftwo := 2%float;
  flt := PrimFloat.ltb
|}.

(** [advance] on binary64, with the scripted driver. *)
Definition advance_f64 (exp_d : float -> float) (u : float)
  : M float (list (list float)) (script float) nat :=
  @advance float (list (list float)) nat (script float)
    (float_arith exp_d) (script_driver 0%float) u.

#[local] Set Warnings "-inexact-float".

(** Two tenors near the largest double; both volatilities are zero. *)
Definition far_state : state float (list (list float)) (script float) :=
  State (Lmm [1.7e308; 1.75e308]%float [0.02; 0.03]%float [0; 0]%float
             (Script 0%float [0; 0]%float))
        [7; 8]%float [[0.1; 0.05]%float].

(** The worked example with [sigma[1] = 0], on a driver that realizes an
    infinite component [B[1]]. *)
Definition wild_state : state float (list (list float)) (script float) :=
  State (Lmm [0; 1; 2]%float [0.02; 0.03; 0.04]%float [0; 0; 0.25]%float
             (Script 0%float [0; 0; 0]%float))
        [7; 8; 9]%float [[0; infinity; 0.05]%float].

(** The worked example with a volatility whose square overflows. *)
Definition steep_state : state float (list (list float)) (script float) :=
  State (Lmm [0; 1; 2]%float [0.02; 0.03; 0.04]%float [0; 0.2; 1e200]%float
             (Script 0%float [0; 0; 0]%float))
        [7; 8; 9]%float [[0; 0.1; 0.05]%float].

#[local] Set Warnings "+inexact-float".

(** ** IEEE 754 arithmetic over an abstract rounding

    The values are NaN, the two infinities and the finite numbers; the two
    zeros are one value, which no operation of [advance] can tell apart. *)
Inductive ieee :=
  | INan
  | IInf (negative : bool)
  | IFin (x : R).

(** What is assumed of the format: [rnd] rounds a real number to the
    format with an unbounded exponent, [big] is the largest finite value
    and [exp_fl x] is what the library's [exp] aims at for a finite [x]
    before overflow.  Rounding is monotone and leaves the values of the
    format as they are; 0 and 1 are values; [exp] is exact at 0. *)
Class Format := {
  rnd : R -> R;
  big : R;
  exp_fl : R -> R;
  rnd_mono : forall x y, (x <= y)%R -> (rnd x <= rnd y)%R;
  rnd_idem : forall x, rnd (rnd x) = rnd x;
  rnd_0 : rnd 0%R = 0%R;
  rnd_1 : rnd 1%R = 1%R;
  big_ge_1 : (1 <= big)%R;
  exp_fl_0 : exp_fl 0%R = 1%R
}.

#[global] Instance Rle_decision (x y : R) : Decision (x <= y)%R := Rle_dec x y.

#[global] Instance Req_decision (x y : R) : Decision (x = y) := Req_dec_T x y.

(** [x <= y] as a test *)
Definition Rleb (x y : R) : bool := bool_decide (x <= y)%R.

Arguments Rleb : simpl never.

Section IEEE.

Context `{!Format}.

(** The result of an operation whose exact value is [x]: the rounded value
    when it is in range, the infinity of the sign of [x] otherwise. *)
Definition overflow (x : R) : ieee :=
  if Rleb (Rabs (rnd x)) big then IFin (rnd x) else IInf (Rltb x 0).

Definition ieee_mul (a b : ieee) : ieee :=
  match a, b with
  | INan, _ | _, INan => INan
  | IInf s, IInf s' => IInf (xorb s s')
  | IInf s, IFin y =>
      if decide (y = 0%R) then INan else IInf (xorb s (Rltb y 0))
  | IFin x, IInf s =>
      if decide (x = 0%R) then INan else IInf (xorb (Rltb x 0) s)
  | IFin x, IFin y => overflow (x * y)
  end.

Definition ieee_sub (a b : ieee) : ieee :=
  match a, b with
  | INan, _ | _, INan => INan
  | IInf s, IInf s' => if Bool.eqb s s' then INan else IInf s
  | IInf s, IFin _ => IInf s
  | IFin _, IInf s => IInf (negb s)
  | IFin x, IFin y => overflow (x - y)
  end.

(** A finite value over zero is an infinity; with one zero in the model its
    sign is taken from the dividend.  [advance] divides by 2 only. *)
Definition ieee_div (a b : ieee) : ieee :=
  match a, b with
  | INan, _ | _, INan => INan
  | IInf _, IInf _ => INan
  | IInf s, IFin y => IInf (xorb s (Rltb y 0))
  | IFin _, IInf _ => IFin 0
  | IFin x, IFin y =>
      if decide (y = 0%R)
      then if decide (x = 0%R) then INan else IInf (Rltb x 0)
      else overflow (x / y)
  end.

(** [exp]: NaN at NaN, [+inf] at [+inf], 0 at [-inf]. *)
Definition ieee_exp (a : ieee) : ieee :=
  match a with
  | INan => INan
  | IInf true => IFin 0
  | IInf false => IInf false
  | IFin x => overflow (exp_fl x)
  end.

(** [a < b]: false when either is NaN. *)
Definition ieee_ltb (a b : ieee) : bool :=
  match a, b with
  | INan, _ | _, INan => false
  | IInf s, IInf s' => s && negb s'
  | IInf s, IFin _ => s
  | IFin _, IInf s' => negb s'
  | IFin x, IFin y => Rltb x y
  end.

(** [a <= b]: false when either is NaN. *)
Definition ieee_leb (a b : ieee) : bool :=
  match a, b with
  | INan, _ | _, INan => false
  | IInf s, IInf s' => s || negb s'
  | IInf s, IFin _ => s
  | IFin _, IInf s' => negb s'
  | IFin x, IFin y => Rleb x y
  end.

#[global] Instance ieee_arith : Arith ieee := {|
  fmul := ieee_mul;
  fsub := ieee_sub;
  fdiv := ieee_div;
  fexp := ieee_exp;
  ftwo := IFin 2;
  flt := ieee_ltb
|}.

(** Neither NaN nor an infinity. *)
Definition finite (a : ieee) : Prop :=
  match a with
  | IFin _ => True
  | _ => False
  end.

(** A value of the format: a finite one is rounded and in range. *)
Definition is_value (a : ieee) : Prop :=
  match a with
  | IFin x => rnd x = x /\ (Rabs x <= big)%R
  | _ => True
  end.

(** NaN, [+inf] or a finite number that is not negative. *)
Definition nonneg_or_nan (a : ieee) : Prop :=
  match a with
  | INan => True
  | IInf s => s = false
  | IFin x => (0 <= x)%R
  end.

End IEEE.

(** The largest finite binary64 number, [(2^53 - 1) * 2^971]. *)
Definition max_double : R := IZR ((2 ^ 53 - 1) * 2 ^ 971).

(** The format that rounds nothing, with the range of binary64. *)
#[global] Instance exact_format : Format.
Proof.
  refine {| rnd := fun x => x; big := max_double; exp_fl := exp |}.
  - intros x y Hxy. exact Hxy.
  - reflexivity.
  - reflexivity.
  - reflexivity.
  - apply (IZR_le 1). apply Z.leb_le. vm_compute. reflexivity.
  - exact exp_0.
Defined.

#[global] Instance ieee_script
  : Driver ieee (list (list ieee)) nat (script ieee) := script_driver (IFin 0).

(** The quotes of the worked example on tenors that start after time 0,
    in IEEE 754 arithmetic. *)
Definition ieee_state : state ieee (list (list ieee)) (script ieee) :=
  State (Lmm [IFin 1; IFin 2; IFin 3]
             [IFin 0.02; IFin 0.03; IFin 0.04]
             [IFin 0; IFin 0.2; IFin 0.25]
             (brownian_new 3))
        [IFin 0; IFin 0; IFin 0]
        [[IFin 0.3; IFin 0.1; IFin 0.05]].

(** * Properties for any numeric type *)

Section ModelFacts.

Context {F rng correlation brownian : Type}.
Context `{!Arith F} `{!Driver F rng correlation brownian}.

Local Abbreviation lmm := (lmm F brownian).
Local Abbreviation state := (state F rng brownian).
Local Abbreviation M := (M F rng brownian).

Implicit Types (s : state) (m : lmm) (u : F) (k j n : nat).

Lemma bind_ok {A C} (c : M A) (f : A -> M C) s b s' :
  bind c f s = (inr b, s') <->
  exists a s1, c s = (inr a, s1) /\ f a s1 = (inr b, s').
Proof.
  unfold bind. destruct (c s) as [[e|a] s1]; split.
  - discriminate.
  - intros (a & s2 & Hc & _). discriminate.
  - eauto.
  - intros (a' & s2 & Hc & Hf). by simplify_eq.
Qed.

Lemma bind_fail {A C} (c : M A) (f : A -> M C) s e s' :
  bind c f s = (inl e, s') <->
  c s = (inl e, s') \/
  exists a s1, c s = (inr a, s1) /\ f a s1 = (inl e, s').
Proof.
  unfold bind. destruct (c s) as [[e1|a] s1]; split.
  - intros; left; by simplify_eq.
  - intros [Hc|(a & s2 & Hc & _)]; by simplify_eq.
  - eauto.
  - intros [Hc|(a' & s2 & Hc & Hf)]; by simplify_eq.
Qed.

(** *** Parameters are kept *)

Lemma keeps_params_ret {A} (a : A) : keeps_params (ret a : M A).
Proof. by intros s. Qed.

Lemma keeps_params_raise {A} e : keeps_params (raise e : M A).
Proof. by intros s. Qed.

Lemma keeps_params_bind {A C} (c : M A) (f : A -> M C) :
  keeps_params c -> (forall a, keeps_params (f a)) -> keeps_params (bind c f).
Proof.
  intros Hc Hf s. unfold bind. specialize (Hc s).
  destruct (c s) as [[e|a] s1]; simpl in *; [done|].
  destruct (Hf a s1) as (-> & -> & ->). done.
Qed.

Lemma keeps_params_read (v : state -> list F) k : keeps_params (read v k : M F).
Proof. intros s. unfold read. by destruct (v s !! k). Qed.

Lemma keeps_params_f_set k (x : F) : keeps_params (f_set k x : M unit).
Proof. intros s. unfold f_set. by case_decide. Qed.

Lemma keeps_params_B_advance u : keeps_params (B_advance u : M unit).
Proof.
  intros s. unfold B_advance, advanced.
  by destruct (brownian_advance u (src s) (B (self s))).
Qed.

Lemma keeps_params_B_reset : keeps_params (B_reset : M unit).
Proof. by intros s. Qed.

Lemma keeps_params_size : keeps_params (size : M nat).
Proof. by intros s. Qed.

Lemma keeps_params_ensure c : keeps_params (ensure c : M unit).
Proof. intros s. by destruct c. Qed.

Lemma keeps_params_t_upper_bound u : keeps_params (t_upper_bound u : M nat).
Proof. by intros s. Qed.

Create HintDb frame discriminated.

#[local] Hint Resolve keeps_params_ret keeps_params_raise keeps_params_read
  keeps_params_f_set keeps_params_B_advance keeps_params_B_reset
  keeps_params_size keeps_params_ensure keeps_params_t_upper_bound : frame.

Ltac frame_step :=
  first [ apply keeps_params_bind; [|intros ?]
        | match goal with
          | |- keeps_params (if ?b then _ else _) => destruct b
          end
        | solve [auto with frame] ].

Lemma keeps_params_advance_body u k :
  keeps_params (advance_body u k : M unit).
Proof.
  unfold advance_body, phi_at, sigma_at, B_at, t_at, f_at.
  repeat frame_step.
Qed.

Lemma keeps_params_advance_loop u count k :
  keeps_params (advance_loop u count k : M unit).
Proof.
  revert k. induction count as [|count IH]; intros k; simpl.
  - apply keeps_params_ret.
  - apply keeps_params_bind; [apply keeps_params_advance_body | auto].
Qed.

Lemma keeps_params_advance u : keeps_params (advance u : M nat).
Proof.
  unfold advance.
  repeat first [ apply keeps_params_advance_loop | frame_step ].
Qed.

(** *** Only [ensure] throws *)

Lemma never_throws_ret {A} (a : A) : never_throws (ret a : M A).
Proof. intros s e s'. discriminate. Qed.

Lemma never_throws_bind {A C} (c : M A) (f : A -> M C) :
  never_throws c -> (forall a, never_throws (f a)) -> never_throws (bind c f).
Proof.
  intros Hc Hf s e s' Hs.
  apply bind_fail in Hs as [Hs|(a & s1 & _ & Hs)].
  - by eapply Hc.
  - by eapply Hf.
Qed.

Lemma never_throws_read (v : state -> list F) k : never_throws (read v k : M F).
Proof.
  intros s e s'. unfold read. destruct (v s !! k); intros; by simplify_eq.
Qed.

Lemma never_throws_f_set k (x : F) : never_throws (f_set k x : M unit).
Proof.
  intros s e s'. unfold f_set. case_decide; intros; by simplify_eq.
Qed.

Lemma never_throws_advance_body u k : never_throws (advance_body u k : M unit).
Proof.
  unfold advance_body, phi_at, sigma_at, B_at, t_at, f_at.
  repeat first
    [ apply never_throws_bind; [|intros ?]
    | match goal with |- never_throws (if ?b then _ else _) => destruct b end
    | apply never_throws_read | apply never_throws_f_set
    | apply never_throws_ret ].
Qed.

Lemma never_throws_advance_loop u count k :
  never_throws (advance_loop u count k : M unit).
Proof.
  revert k. induction count as [|count IH]; intros k; simpl.
  - apply never_throws_ret.
  - apply never_throws_bind; [apply never_throws_advance_body | auto].
Qed.

(** *** The body and the loop of [advance] *)

Lemma read_ok (v : state -> list F) k s x s' :
  read v k s = (inr x, s') <-> v s !! k = Some x /\ s' = s.
Proof.
  unfold read. destruct (v s !! k) as [y|]; split.
  - intros ?; by simplify_eq.
  - intros [? ->]; by simplify_eq.
  - discriminate.
  - intros [? _]; discriminate.
Qed.

Lemma f_set_ok k (x : F) s s' :
  f_set k x s = (inr tt, s') <->
  k < length (buf s) /\ s' = State (self s) (<[k:=x]> (buf s)) (src s).
Proof.
  unfold f_set. case_decide; split.
  - intros ?; by simplify_eq.
  - by intros [_ ->].
  - discriminate.
  - by intros [? _].
Qed.

(** The body at [k] succeeds exactly when all its reads and its writes are
    in range, and then stores [forward_at] in [f_[k]] and changes nothing
    else. *)
Lemma advance_body_ok u k s s' :
  advance_body u k s = (inr tt, s') <->
  exists x, forward_at (self s) u k = Some x
         /\ k < length (buf s)
         /\ s' = State (self s) (<[k:=x]> (buf s)) (src s).
Proof.
  unfold advance_body, forward_at, futures_at, phi_at, sigma_at, B_at, t_at,
    f_at.
  split.
  - intros Hrun.
    apply bind_ok in Hrun as (phi_k & s1 & [Hphi ->]%read_ok & Hrun).
    apply bind_ok in Hrun as (sigma_k & s2 & [Hsigma ->]%read_ok & Hrun).
    apply bind_ok in Hrun as (B_k & s3 & [HB ->]%read_ok & Hrun).
    apply bind_ok in Hrun as ([] & s4 & [Hk ->]%f_set_ok & Hrun).
    simpl in *. rewrite Hphi, Hsigma, HB. simpl.
    destruct (0 <? k).
    + apply bind_ok in Hrun as (t_k1 & s5 & [Ht ->]%read_ok & Hrun).
      apply bind_ok in Hrun as (sigma_k' & s6 & [Hsigma' ->]%read_ok & Hrun).
      apply bind_ok in Hrun as (f_k & s7 & [Hf ->]%read_ok & Hrun).
      apply f_set_ok in Hrun as [_ ->]. simpl in *.
      rewrite list_lookup_insert_eq in Hf by done.
      simplify_eq. rewrite Ht. simpl. rewrite list_insert_insert_eq. eauto.
    + unfold ret in Hrun. simplify_eq. eauto.
  - intros (x & Hx & Hk & ->).
    destruct (phi (self s) !! k) as [phi_k|] eqn:Hphi; [|done].
    destruct (sigma (self s) !! k) as [sigma_k|] eqn:Hsigma; [|done].
    destruct (brownian_at (B (self s)) !! k) as [B_k|] eqn:HB; [|done].
    simpl in Hx.
    apply bind_ok. exists phi_k, s. split; [by apply read_ok|].
    apply bind_ok. exists sigma_k, s. split; [by apply read_ok|].
    apply bind_ok. exists B_k, s. split; [by apply read_ok|].
    apply bind_ok. eexists tt, _. split; [by apply f_set_ok|].
    destruct (0 <? k).
    + destruct (t (self s) !! (k - 1)) as [t_k1|] eqn:Ht; [|done].
      simpl in Hx. simplify_eq.
      apply bind_ok. eexists t_k1, _. split; [by apply read_ok|].
      apply bind_ok. eexists sigma_k, _. split; [by apply read_ok|].
      apply bind_ok. eexists _, _. split.
      { apply read_ok. split; [|done]. simpl.
        by apply list_lookup_insert_eq. }
      apply f_set_ok. simpl. rewrite length_insert. split; [done|].
      by rewrite list_insert_insert_eq.
    + by simplify_eq.
Qed.

(** A loop that returns has had all its accesses in range; it leaves the
    model and the random source as they are, and in the buffer it replaces
    the entries [k .. k+count-1] by [forward_at] and keeps the others. *)
Lemma advance_loop_inv u count k s s' :
  advance_loop u count k s = (inr tt, s') ->
  self s' = self s /\ src s' = src s /\ length (buf s') = length (buf s) /\
  (forall i, k <= i < k + count ->
     is_Some (forward_at (self s) u i) /\ i < length (buf s)) /\
  (forall i, buf s' !! i =
     if decide (k <= i < k + count) then forward_at (self s) u i
     else buf s !! i).
Proof.
  revert k s. induction count as [|count IH]; intros k s Hrun; simpl in Hrun.
  - unfold ret in Hrun. simplify_eq. repeat split; try done; try lia.
    intros i. rewrite decide_False by lia. done.
  - apply bind_ok in Hrun as ([] & s1 & Hbody & Hrun).
    apply advance_body_ok in Hbody as (x & Hx & Hk & ->).
    apply IH in Hrun as (Hself & Hsrc & Hlen & Hin & Hbuf). simpl in *.
    rewrite length_insert in Hlen, Hin.
    repeat split; try done.
    + destruct (decide (i = k)) as [->|]; [by rewrite Hx|].
      apply Hin. lia.
    + destruct (decide (i = k)) as [->|]; [done|]. apply Hin. lia.
    + intros i. rewrite Hbuf.
      destruct (decide (i = k)) as [->|Hne].
      * rewrite decide_False, decide_True by lia.
        by rewrite list_lookup_insert_eq.
      * rewrite list_lookup_insert_ne by done.
        repeat case_decide; first [done | lia].
Qed.

(** Conversely the loop returns when all its accesses are in range. *)
Lemma advance_loop_runs u count k s :
  (forall i, k <= i < k + count ->
     is_Some (forward_at (self s) u i) /\ i < length (buf s)) ->
  exists s', advance_loop u count k s = (inr tt, s').
Proof.
  revert k s. induction count as [|count IH]; intros k s Hin; simpl.
  - by eexists.
  - destruct (Hin k) as [[x Hx] Hk]; [lia|].
    destruct (IH (S k) (State (self s) (<[k:=x]> (buf s)) (src s)))
      as [s' Hs'].
    { intros i Hi. simpl. rewrite length_insert. apply Hin. lia. }
    exists s'. apply bind_ok. eexists tt, _. split; [|exact Hs'].
    apply advance_body_ok. eauto.
Qed.

(** An entry of the curve is defined when the sequences and the driver
    reach its index. *)
Lemma forward_at_is_Some m u k :
  lmm_wf m -> k < length (t m) -> k < length (brownian_at (B m)) ->
  is_Some (forward_at m u k).
Proof.
  intros [Hphi Hsigma] Hk Hd. unfold forward_at, futures_at.
  destruct (lookup_lt_is_Some_2 (phi m) k) as [phi_k ->]; [lia|].
  destruct (lookup_lt_is_Some_2 (sigma m) k) as [sigma_k ->]; [lia|].
  destruct (lookup_lt_is_Some_2 (brownian_at (B m)) k) as [B_k ->]; [lia|].
  simpl. destruct (0 <? k); [|done].
  destruct (lookup_lt_is_Some_2 (t m) (k - 1)) as [t_k1 ->]; [lia|]. done.
Qed.

Lemma forward_at_driver m u k :
  is_Some (forward_at m u k) -> k < length (brownian_at (B m)).
Proof.
  unfold forward_at, futures_at. intros [x Hx].
  destruct (phi m !! k); [|done]. destruct (sigma m !! k); [|done]. simpl in Hx.
  destruct (brownian_at (B m) !! k) eqn:HB; [|done].
  by eapply lookup_lt_Some.
Qed.

Lemma forward_at_Some m u k x :
  forward_at m u k = Some x <->
  exists phi_k sigma_k B_k,
    phi m !! k = Some phi_k /\ sigma m !! k = Some sigma_k /\
    brownian_at (B m) !! k = Some B_k /\
    let futures :=
      (phi_k * fexp (sigma_k * B_k - sigma_k * sigma_k * u / ftwo))%num in
    match k with
    | O => x = futures
    | S k1 =>
        exists t_k1, t m !! k1 = Some t_k1 /\
          x = (futures
               - sigma_k * sigma_k * (t_k1 - u) * (t_k1 - u) / ftwo)%num
    end.
Proof.
  unfold forward_at, futures_at. split.
  - intros Hx.
    destruct (phi m !! k) as [phi_k|]; [|done].
    destruct (sigma m !! k) as [sigma_k|]; [|done].
    destruct (brownian_at (B m) !! k) as [B_k|]; [|done].
    exists phi_k, sigma_k, B_k. repeat split. simpl in *.
    destruct k as [|k1]; simpl in *; [by simplify_eq|].
    rewrite Nat.sub_0_r in Hx.
    destruct (t m !! k1) as [t_k1|]; [|done].
    simpl in Hx. simplify_eq. eauto.
  - intros (phi_k & sigma_k & B_k & -> & -> & -> & Hx). simpl in *.
    destruct k as [|k1]; simpl; [by subst|].
    destruct Hx as (t_k1 & Ht & ->). rewrite Nat.sub_0_r, Ht. done.
Qed.

(** *** [std::upper_bound] *)

(** The result lies in the searched range, whatever the order of the
    elements. *)
Lemma upper_bound_from_range fuel (v : list F) u first len :
  first <= upper_bound_from fuel v u first len <= first + len.
Proof.
  revert first len.
  induction fuel as [|fuel IH]; intros first len; cbn [upper_bound_from].
  - lia.
  - destruct (Nat.eqb_spec len 0) as [->|Hlen]; [lia|].
    pose proof (Nat.div_lt len 2 ltac:(lia) ltac:(lia)) as Hhalf.
    destruct (v !! (first + len / 2)) as [x|]; [|lia].
    destruct (flt u x).
    + specialize (IH first (len / 2)). lia.
    + specialize (IH (S (first + len / 2)) (len - len / 2 - 1)). lia.
Qed.

(** Fuel beyond [len] is not used: the search ends by itself. *)
Lemma upper_bound_from_fuel fuel fuel' (v : list F) u first len :
  len <= fuel -> len <= fuel' ->
  upper_bound_from fuel v u first len = upper_bound_from fuel' v u first len.
Proof.
  revert fuel' first len.
  induction fuel as [|fuel IH]; intros fuel' first len Hfuel Hfuel'.
  - assert (len = 0) as -> by lia. by destruct fuel'.
  - destruct fuel' as [|fuel'].
    { assert (len = 0) as -> by lia. done. }
    cbn [upper_bound_from].
    destruct (Nat.eqb_spec len 0) as [->|Hlen]; [done|].
    pose proof (Nat.div_lt len 2 ltac:(lia) ltac:(lia)) as Hhalf.
    destruct (v !! (first + len / 2)) as [x|]; [|done].
    destruct (flt u x); apply IH; lia.
Qed.

Lemma upper_bound_le (v : list F) u : upper_bound v u <= length v.
Proof.
  unfold upper_bound.
  pose proof (upper_bound_from_range (length v) v u 0 (length v)). lia.
Qed.

(** On a partitioned range with enough fuel, the comparison [u < v[i]]
    fails below the result and holds from the result on. *)
Lemma upper_bound_from_spec fuel (v : list F) u first len :
  len <= fuel -> first + len <= length v -> partitioned v u ->
  (forall i x, i < first -> v !! i = Some x -> flt u x = false) ->
  (forall i x, first + len <= i -> v !! i = Some x -> flt u x = true) ->
  let r := upper_bound_from fuel v u first len in
  (forall i x, i < r -> v !! i = Some x -> flt u x = false) /\
  (forall i x, r <= i -> v !! i = Some x -> flt u x = true).
Proof.
  intros Hfuel Hlen Hpart. revert first len Hfuel Hlen.
  induction fuel as [|fuel IH]; intros first len Hfuel Hlen Hlo Hhi;
    cbn [upper_bound_from].
  - split; [done|]. intros i x Hi. apply Hhi. lia.
  - destruct (Nat.eqb_spec len 0) as [->|Hpos].
    { split; [done|]. intros i x Hi. apply Hhi. lia. }
    pose proof (Nat.div_lt len 2 ltac:(lia) ltac:(lia)) as Hhalf.
    destruct (lookup_lt_is_Some_2 v (first + len / 2)) as [x Hx]; [lia|].
    rewrite Hx. destruct (flt u x) eqn:Hcmp.
    + apply IH; [lia|lia|done|].
      intros i y Hi Hy. eapply (Hpart (first + len / 2) i); eauto.
    + apply IH; [lia|lia| |].
      * intros i y Hi Hy. destruct (flt u y) eqn:Hy'; [|done].
        rewrite <- Hcmp. symmetry.
        eapply (Hpart i (first + len / 2)); eauto. lia.
      * intros i y Hi. apply Hhi. lia.
Qed.

Lemma upper_bound_spec (v : list F) u :
  partitioned v u ->
  (forall i x, i < upper_bound v u -> v !! i = Some x -> flt u x = false) /\
  (forall i x, upper_bound v u <= i -> v !! i = Some x -> flt u x = true).
Proof.
  intros Hpart. apply upper_bound_from_spec; try done.
  - intros i x Hi. lia.
  - intros i x Hi Hx. apply lookup_lt_Some in Hx. simpl in Hi. lia.
Qed.

(** *** The outcomes of [advance] *)

Lemma advance_unfold u s :
  advance u s =
  if upper_bound (t (self s)) u =? length (t (self s))
  then (inl OutOfRange, s)
  else
    match advance_loop u (length (t (self s)) - upper_bound (t (self s)) u)
            (upper_bound (t (self s)) u) (advanced u s) with
    | (inr _, s') => (inr (upper_bound (t (self s)) u), s')
    | (inl e, s') => (inl e, s')
    end.
Proof.
  unfold advance, bind, t_upper_bound, size, ensure, B_advance.
  simpl. destruct (_ =? _); simpl; [done|].
  assert (Ht : t (self (advanced u s)) = t (self s)).
  { unfold advanced. by destruct (brownian_advance _ _ _). }
  rewrite Ht. by destruct (advance_loop _ _ _ _) as [[e|[]] s'].
Qed.

Lemma advanced_params u s :
  t (self (advanced u s)) = t (self s) /\
  phi (self (advanced u s)) = phi (self s) /\
  sigma (self (advanced u s)) = sigma (self s) /\
  buf (advanced u s) = buf s /\
  (B (self (advanced u s)), src (advanced u s)) =
    brownian_advance u (src s) (B (self s)).
Proof. unfold advanced. by destruct (brownian_advance _ _ _). Qed.

(** [advance] throws exactly when [upper_bound] finds no element, and the
    state is then the one of the call. *)
Lemma advance_throws u s s' :
  advance u s = (inl OutOfRange, s') <->
  upper_bound (t (self s)) u = length (t (self s)) /\ s' = s.
Proof.
  rewrite advance_unfold.
  destruct (Nat.eqb_spec (upper_bound (t (self s)) u) (length (t (self s))))
    as [Heq|Hne].
  - split; [intros; by simplify_eq | by intros [_ ->]].
  - split; [|by intros [? _]].
    destruct (advance_loop _ _ _ _) as [[e|[]] s1] eqn:Hloop; [|done].
    intros ?; simplify_eq.
    by apply never_throws_advance_loop in Hloop.
Qed.

(** A call that returns [j] found [j] with [upper_bound], advanced the
    driver, and ran the loop over [j .. n-1] with every access in range. *)
Lemma advance_returns_inv u s j s' :
  advance u s = (inr j, s') ->
  let n := length (t (self s)) in
  j = upper_bound (t (self s)) u /\ j < n /\
  self s' = self (advanced u s) /\ src s' = src (advanced u s) /\
  length (buf s') = length (buf s) /\
  (forall i, j <= i < n ->
     is_Some (forward_at (self s') u i) /\ i < length (buf s)) /\
  (forall i, buf s' !! i =
     if decide (j <= i < n) then forward_at (self s') u i else buf s !! i).
Proof.
  rewrite advance_unfold. intros Hrun n.
  pose proof (upper_bound_le (t (self s)) u) as Hle.
  destruct (Nat.eqb_spec (upper_bound (t (self s)) u) (length (t (self s))))
    as [Heq|Hne]; [done|].
  destruct (advance_loop _ _ _ _) as [[e|[]] s1] eqn:Hloop; [done|].
  simplify_eq.
  apply advance_loop_inv in Hloop as (Hself & Hsrc & Hlen & Hin & Hbuf).
  destruct (advanced_params u s) as (_ & _ & _ & Hb & _).
  rewrite Hb in Hlen, Hin, Hbuf. rewrite Hself.
  replace (upper_bound (t (self s)) u
           + (length (t (self s)) - upper_bound (t (self s)) u))
    with (length (t (self s))) in * by lia.
  repeat split; try done; try apply Hin; try lia; done.
Qed.

(** A call whose accesses are all in range returns. *)
Lemma advance_returns u s :
  let n := length (t (self s)) in
  let j := upper_bound (t (self s)) u in
  j < n ->
  (forall i, j <= i < n ->
     is_Some (forward_at (self (advanced u s)) u i) /\ i < length (buf s)) ->
  exists s', advance u s = (inr j, s').
Proof.
  intros n j Hj Hin. rewrite advance_unfold.
  destruct (Nat.eqb_spec (upper_bound (t (self s)) u) (length (t (self s))))
    as [Heq|Hne]; [subst n j; lia|].
  destruct (advance_loop_runs u (n - j) j (advanced u s)) as [s' Hs'].
  { intros i Hi. destruct (advanced_params u s) as (_ & _ & _ & -> & _).
    apply Hin. lia. }
  exists s'. subst n j. by rewrite Hs'.
Qed.

(** The entries [j .. n-1] after a call that returns [j], in the operations
    of the numeric type. *)
Lemma advance_entry u s j s' k :
  advance u s = (inr j, s') -> j <= k < length (t (self s)) ->
  exists phi_k sigma_k B_k,
    phi (self s) !! k = Some phi_k /\ sigma (self s) !! k = Some sigma_k /\
    brownian_at (B (self s')) !! k = Some B_k /\
    let futures :=
      (phi_k * fexp (sigma_k * B_k - sigma_k * sigma_k * u / ftwo))%num in
    match k with
    | O => buf s' !! k = Some futures
    | S k1 =>
        exists t_k1, t (self s) !! k1 = Some t_k1 /\
          buf s' !! k =
            Some (futures
                  - sigma_k * sigma_k * (t_k1 - u) * (t_k1 - u) / ftwo)%num
    end.
Proof.
  intros Hrun Hk.
  destruct (advance_returns_inv _ _ _ _ Hrun)
    as (Hj & Hjn & Hself & Hsrc & Hlen & Hin & Hbuf).
  destruct (advanced_params u s) as (Ht & Hphi & Hsigma & _ & _).
  rewrite <- Hself in Ht, Hphi, Hsigma.
  destruct (Hin k Hk) as [[x Hx] _].
  specialize (Hbuf k). rewrite decide_True in Hbuf by done.
  rewrite Hx in Hbuf.
  apply forward_at_Some in Hx
    as (phi_k & sigma_k & B_k & Hp & Hs & Hb & Hx).
  rewrite Hphi in Hp. rewrite Hsigma in Hs.
  exists phi_k, sigma_k, B_k. repeat split; try done. cbv zeta in *.
  destruct k as [|k1]; [by subst|].
  destruct Hx as (t_k1 & Ht1 & ->). rewrite Ht in Ht1. eauto.
Qed.

(** ** The frame of [advance] and of [reset] *)

(** C4. A call of [advance] that returns [j] writes exactly the entries
    [j .. n-1] of the output buffer: the buffer keeps its length, the
    entries below [j] (and any beyond [n-1]) keep the values they had
    before the call, and the entries [j .. n-1] receive the sampled
    values, which do not depend on what the buffer held: the same call on
    any other buffer of that length returns [j] too, leaves the same values
    in [j .. n-1] and keeps that buffer elsewhere. *)
Theorem advance_writes_from_j u s j s' :
  advance u s = (inr j, s') ->
  let n := length (t (self s)) in
  length (buf s') = length (buf s) /\
  (forall k, k < j -> buf s' !! k = buf s !! k) /\
  (forall k, n <= k -> buf s' !! k = buf s !! k) /\
  (forall k, j <= k < n -> is_Some (buf s' !! k)) /\
  (forall g, length g = length (buf s) ->
     exists s'', advance u (State (self s) g (src s)) = (inr j, s'')
       /\ forall k, buf s'' !! k =
            if decide (j <= k < n) then buf s' !! k else g !! k).
Proof.
  intros Hrun n.
  destruct (advance_returns_inv _ _ _ _ Hrun)
    as (Hj & Hjn & Hself & Hsrc & Hlen & Hin & Hbuf).
  repeat split; try done.
  - intros k Hk. rewrite Hbuf. by rewrite decide_False by lia.
  - intros k Hk. rewrite Hbuf. by rewrite decide_False by (subst n; lia).
  - intros k Hk. rewrite Hbuf. rewrite decide_True by done. by apply Hin.
  - intros g Hg. set (sg := State (self s) g (src s)).
    assert (Hadv : self (advanced u sg) = self (advanced u s)).
    { unfold advanced, sg. simpl. by destruct (brownian_advance _ _ _). }
    destruct (advance_returns u sg) as [s'' Hs''].
    { simpl. by rewrite <- Hj. }
    { simpl. intros i Hi. rewrite Hadv, <- Hself, Hg. apply Hin.
      rewrite Hj. exact Hi. }
    simpl in Hs''. rewrite <- Hj in Hs''. exists s''. split; [done|].
    destruct (advance_returns_inv _ _ _ _ Hs'')
      as (_ & _ & Hself' & _ & _ & _ & Hbuf').
    simpl in Hbuf'. intros k. rewrite Hbuf', Hbuf. subst n.
    repeat case_decide; try done. by rewrite Hself', Hadv, Hself.
Qed.

(** C8. When [advance] throws, the state is the one before the call: the
    driver has not been advanced, the random source has not been consumed
    and the buffer has not been written.  A later call therefore behaves as
    it would have without the failed one. *)
Theorem advance_throws_before_driver u s s' :
  advance u s = (inl OutOfRange, s') ->
  B (self s') = B (self s) /\ s' = s /\
  (forall u', advance u' s' = advance u' s) /\ reset s' = reset s.
Proof. intros [_ ->]%advance_throws. done. Qed.

(** C9. [t], [phi] and [sigma] are the copies made by the constructor and
    no member function changes them: [size] changes nothing at all,
    [reset] changes the driver only, and [advance] keeps the three
    sequences whatever its outcome. *)
Theorem params_fixed :
  (forall n t0 phi0 sigma0 (e : correlation) m,
     lmm_new n t0 phi0 sigma0 e = Some m ->
     t m = take n t0 /\ phi m = take n phi0 /\ sigma m = take n sigma0) /\
  (forall s, (size s).2 = s) /\
  (forall s, t (self (reset s).2) = t (self s)
          /\ phi (self (reset s).2) = phi (self s)
          /\ sigma (self (reset s).2) = sigma (self s)
          /\ B (self (reset s).2) = brownian_reset (B (self s))
          /\ buf (reset s).2 = buf s /\ src (reset s).2 = src s) /\
  (forall u, keeps_params (advance u : M nat)).
Proof.
  split; [|split; [done|split; [done|]]].
  - intros n t0 phi0 sigma0 e m Hnew. unfold lmm_new in Hnew.
    destruct (_ && _); by simplify_eq.
  - apply keeps_params_advance.
Qed.

(** C10. [advance] reads [B[k]] for every [k] from [j] to [n-1] and
    compares no index with the dimension [d] of the driver.  When the
    search succeeds ([j < n]), these reads are all in range exactly when
    [d >= n]; a call that returns has therefore met [d >= n], and with
    [d < n] the call does not throw: it runs into an access out of
    bounds. *)
Theorem advance_reads_driver_unchecked u s :
  let n := length (t (self s)) in
  let j := upper_bound (t (self s)) u in
  let d := length (brownian_at (B (self (advanced u s)))) in
  j < n ->
  ((forall k, j <= k < n ->
      is_Some (brownian_at (B (self (advanced u s))) !! k)) <-> n <= d) /\
  (forall j' s', advance u s = (inr j', s') -> n <= d) /\
  (d < n -> exists s', advance u s = (inl BadAccess, s')).
Proof.
  intros n j d Hj.
  assert (Hret : forall j' s', advance u s = (inr j', s') -> n <= d).
  { intros j' s' Hrun.
    destruct (advance_returns_inv _ _ _ _ Hrun)
      as (Hj' & _ & Hself & _ & _ & Hin & _).
    destruct (Hin (n - 1)) as [Hsome _]; [subst n j; lia|].
    apply forward_at_driver in Hsome. rewrite Hself in Hsome.
    subst n d. lia. }
  split; [|split; [done|]].
  - split.
    + intros Hall. destruct (Hall (n - 1)) as [x Hx]; [lia|].
      apply lookup_lt_Some in Hx. subst d. lia.
    + intros Hd k Hk. apply lookup_lt_is_Some_2. subst d. lia.
  - intros Hd. destruct (advance u s) as [[e|j'] s'] eqn:Hrun.
    + exists s'. destruct e; [|done].
      apply advance_throws in Hrun as [Heq _]. subst n j. lia.
    + specialize (Hret _ _ eq_refl). lia.
Qed.

End ModelFacts.

(** * Properties over the real numbers *)

Lemma Rltb_true (x y : R) : (x < y)%R -> Rltb x y = true.
Proof. intros. unfold Rltb. by apply bool_decide_eq_true_2. Qed.

Lemma Rltb_false (x y : R) : (y <= x)%R -> Rltb x y = false.
Proof. intros. unfold Rltb. apply bool_decide_eq_false_2. lra. Qed.

Lemma Rltb_spec (x y : R) : reflect (x < y)%R (Rltb x y).
Proof. unfold Rltb. apply bool_decide_reflect. Qed.

(** Decide the comparisons of explicit numbers. *)
Ltac eval_Rltb :=
  repeat first [rewrite Rltb_true by lra | rewrite Rltb_false by lra].

(** Evaluate a call on explicit sequences. *)
Ltac run :=
  repeat (unfold advance, advance_body, bind, t_upper_bound, upper_bound,
            size, ensure, B_advance, phi_at, sigma_at, B_at, t_at, f_at,
            read, f_set, ret;
          cbn -[Rltb advanced]; eval_Rltb;
          rewrite ?decide_True by (cbn; lia)).

Section RealFacts.

Context {rng correlation brownian : Type}.
Context `{!Driver R rng correlation brownian}.

Local Abbreviation lmm := (lmm R brownian).
Local Abbreviation state := (state R rng brownian).
Local Abbreviation M := (M R rng brownian).

Implicit Types (s : state) (m : lmm) (u : R) (k j n : nat) (v : list R).

Local Open Scope R_scope.

(** *** The search in an increasing term structure *)

Lemma increasing_lt v i j x y :
  increasing v -> (i < j)%nat -> v !! i = Some x -> v !! j = Some y -> x < y.
Proof.
  intros Hinc Hij Hx. revert y. induction Hij as [|j Hij IH]; intros y Hy.
  - by eapply Hinc.
  - destruct (lookup_lt_is_Some_2 v j) as [z Hz].
    { apply lookup_lt_Some in Hy. lia. }
    specialize (IH z Hz). specialize (Hinc j z y Hz Hy). lra.
Qed.

Lemma increasing_partitioned v u : increasing v -> partitioned v u.
Proof.
  intros Hinc i j x y Hij Hx Hy Hcmp. simpl in *.
  destruct (Rltb_spec u x) as [Hux|]; [|done].
  apply Rltb_true.
  destruct (decide (i = j)) as [->|Hne]; [by simplify_eq|].
  assert (x < y) by (apply (increasing_lt v i j x y Hinc); [lia|done|done]).
  lra.
Qed.

(** In an increasing sequence [upper_bound] is the number of elements
    that are at most [u]. *)
Lemma upper_bound_increasing v u :
  increasing v ->
  (forall i x, (i < upper_bound v u)%nat -> v !! i = Some x -> x <= u) /\
  (forall i x, (upper_bound v u <= i)%nat -> v !! i = Some x -> u < x).
Proof.
  intros Hinc.
  destruct (upper_bound_spec v u (increasing_partitioned v u Hinc))
    as [Hlo Hhi].
  split; intros i x Hi Hx.
  - specialize (Hlo i x Hi Hx). simpl in Hlo.
    destruct (Rltb_spec u x); [done|lra].
  - specialize (Hhi i x Hi Hx). simpl in Hhi.
    by destruct (Rltb_spec u x).
Qed.

(** No element is found exactly when the last one is at most [u]. *)
Lemma upper_bound_end v u t_last :
  increasing v -> last v = Some t_last ->
  upper_bound v u = length v <-> t_last <= u.
Proof.
  intros Hinc Hlast. rewrite last_lookup in Hlast.
  destruct (upper_bound_increasing v u Hinc) as [Hlo Hhi].
  pose proof (upper_bound_le v u) as Hle.
  pose proof (lookup_lt_Some _ _ _ Hlast) as Hn.
  split.
  - intros Heq. apply (Hlo (pred (length v))); [lia|done].
  - intros Hu. destruct (decide (upper_bound v u = length v)); [done|].
    specialize (Hhi (pred (length v)) t_last ltac:(lia) Hlast). lra.
Qed.

(** ** The sampled curve *)

(** C1. After a call that returns [j], with the driver advanced to [u] by
    [B.advance(u, r)], every entry [k] with [j <= k <= n-1] holds
    [phi[k] * exp(sigma[k] * B[k] - sigma[k]^2 * u / 2)], less
    [sigma[k]^2 * (t[k-1] - u)^2 / 2] when [k > 0]; nothing is subtracted
    at [k = 0]. *)
Theorem advance_samples_forward u s j s' :
  advance u s = (inr j, s') ->
  (B (self s'), src s') = brownian_advance u (src s) (B (self s)) /\
  forall k, (j <= k <= length (t (self s)) - 1)%nat ->
    exists phi_k sigma_k B_k,
      phi (self s) !! k = Some phi_k /\
      sigma (self s) !! k = Some sigma_k /\
      brownian_at (B (self s')) !! k = Some B_k /\
      let futures := phi_k * exp (sigma_k * B_k - sigma_k ^ 2 * u / 2) in
      match k with
      | O => buf s' !! k = Some futures
      | S k1 =>
          exists t_k1, t (self s) !! k1 = Some t_k1 /\
            buf s' !! k = Some (futures - sigma_k ^ 2 * (t_k1 - u) ^ 2 / 2)
      end.
Proof.
  intros Hrun.
  destruct (advance_returns_inv _ _ _ _ Hrun)
    as (_ & Hjn & Hself & Hsrc & _).
  destruct (advanced_params u s) as (_ & _ & _ & _ & HB).
  rewrite <- Hself, <- Hsrc in HB.
  split; [done|]. intros k Hk.
  destruct (advance_entry u s j s' k Hrun ltac:(lia))
    as (phi_k & sigma_k & B_k & Hp & Hs & Hb & Hx).
  exists phi_k, sigma_k, B_k. repeat split; try done.
  cbn [fmul fsub fdiv fexp ftwo R_arith] in Hx. cbv zeta in *.
  replace (sigma_k ^ 2 * u / 2) with (sigma_k * sigma_k * u / 2) by field.
  destruct k as [|k1]; [done|].
  destruct Hx as (t_k1 & Ht1 & ->).
  exists t_k1. split; [done|]. f_equal. field.
Qed.

(** ** The index returned and the failure *)

(** A call on a well-formed model, with a buffer and a driver that reach
    index [n-1], returns as soon as the search finds an element. *)
Lemma advance_returns_wf u s :
  lmm_wf (self s) ->
  (length (t (self s)) <= length (buf s))%nat ->
  (length (t (self s))
     <= length (brownian_at (B (self (advanced u s)))))%nat ->
  (upper_bound (t (self s)) u < length (t (self s)))%nat ->
  exists s', advance u s = (inr (upper_bound (t (self s)) u), s').
Proof.
  intros [Hphi Hsigma] Hbuf Hd Hj. apply advance_returns; [done|].
  destruct (advanced_params u s) as (Ht & Hp & Hs & _ & _).
  intros i Hi. split; [|lia].
  apply forward_at_is_Some; [|rewrite Ht; lia|lia].
  split; congruence.
Qed.

(** C2. For [t[0] < ... < t[n-1]] and a time [u] of the model,
    [0 <= u < t[n-1]], a call returns (given a well-formed model, a buffer
    and a driver of length at least [n]) and the index [j] it returns is
    the smallest with [t[j] > u]: [u < t[j]] and every earlier element is
    at most [u]; equivalently [t[j-1] <= u < t[j]], with [t[-1] = 0]. *)
Theorem advance_returns_first_above u s t_last :
  increasing (t (self s)) -> last (t (self s)) = Some t_last ->
  0 <= u -> u < t_last ->
  (lmm_wf (self s) ->
   (length (t (self s)) <= length (buf s))%nat ->
   (length (t (self s))
      <= length (brownian_at (B (self (advanced u s)))))%nat ->
   exists j s', advance u s = (inr j, s')) /\
  forall j s', advance u s = (inr j, s') ->
    exists t_j1 t_j,
      t_before (t (self s)) j = Some t_j1 /\
      t (self s) !! j = Some t_j /\
      t_j1 <= u < t_j /\
      (forall i t_i, t (self s) !! i = Some t_i -> u < t_i -> (j <= i)%nat) /\
      (forall i t_i, (i < j)%nat -> t (self s) !! i = Some t_i -> t_i <= u).
Proof.
  intros Hinc Hlast Hu0 Hu.
  destruct (upper_bound_increasing _ u Hinc) as [Hlo Hhi].
  pose proof (upper_bound_le (t (self s)) u) as Hle.
  assert (Hfound : (upper_bound (t (self s)) u < length (t (self s)))%nat).
  { destruct (decide (upper_bound (t (self s)) u = length (t (self s))))
      as [Heq|]; [|lia].
    apply (upper_bound_end _ u t_last Hinc Hlast) in Heq. lra. }
  split.
  - intros Hwf Hbuf Hd. eexists. by apply advance_returns_wf.
  - intros j s' Hrun.
    destruct (advance_returns_inv _ _ _ _ Hrun) as (-> & Hjn & _).
    destruct (lookup_lt_is_Some_2 (t (self s)) _ Hjn) as [t_j Hj].
    assert (Hut : u < t_j) by (apply (Hhi _ _ (le_n _) Hj)).
    assert (Hbefore : exists t_j1,
      t_before (t (self s)) (upper_bound (t (self s)) u) = Some t_j1
      /\ t_j1 <= u).
    { destruct (upper_bound (t (self s)) u) as [|j1] eqn:Hub.
      - exists 0. by split.
      - destruct (lookup_lt_is_Some_2 (t (self s)) j1 ltac:(lia))
          as [t_j1 Hj1].
        exists t_j1. split; [done|]. eapply Hlo; [|exact Hj1]. lia. }
    destruct Hbefore as (t_j1 & Hj1 & Hle1).
    exists t_j1, t_j. do 2 (split; [done|]). split; [lra|]. split; [|done].
    intros i t_i Hi Hlt.
    destruct (decide (upper_bound (t (self s)) u <= i)%nat); [done|].
    assert (t_i <= u) by (eapply Hlo; [|exact Hi]; lia). lra.
Qed.

(** C3. For [t[0] < ... < t[n-1]], [advance] throws exactly when
    [u >= t[n-1]], that is exactly when no [t[j] > u] exists; for
    [u < t[n-1]] it does not throw, and returns when the model is
    well-formed and the buffer and the driver reach index [n-1]. *)
Theorem advance_throws_iff_past_last u s t_last :
  increasing (t (self s)) -> last (t (self s)) = Some t_last ->
  ((exists s', advance u s = (inl OutOfRange, s')) <-> t_last <= u) /\
  (t_last <= u <-> ~ exists j t_j, t (self s) !! j = Some t_j /\ u < t_j) /\
  (u < t_last ->
     (forall s', advance u s <> (inl OutOfRange, s')) /\
     (lmm_wf (self s) ->
      (length (t (self s)) <= length (buf s))%nat ->
      (length (t (self s))
         <= length (brownian_at (B (self (advanced u s)))))%nat ->
      exists j s', advance u s = (inr j, s'))).
Proof.
  intros Hinc Hlast.
  pose proof (upper_bound_end _ u t_last Hinc Hlast) as Hend.
  destruct (upper_bound_increasing _ u Hinc) as [Hlo Hhi].
  pose proof (upper_bound_le (t (self s)) u) as Hle.
  assert (Hthrow :
    (exists s', advance u s = (inl OutOfRange, s')) <-> t_last <= u).
  { rewrite <- Hend. split.
    - intros [s' Hs']. by apply advance_throws in Hs' as [? _].
    - intros Heq. exists s. by apply advance_throws. }
  split; [done|]. split.
  - split.
    + intros Hu (i & t_i & Hi & Hlt).
      apply Hend in Hu. pose proof (lookup_lt_Some _ _ _ Hi).
      specialize (Hlo i t_i ltac:(lia) Hi). lra.
    + intros Hnone. destruct (Rle_lt_dec t_last u) as [|Hlt]; [done|].
      destruct Hnone. rewrite last_lookup in Hlast. eauto.
  - intros Hu. split.
    + intros s' Hs'. assert (t_last <= u); [|lra]. apply Hthrow. eauto.
    + intros Hwf Hbuf Hd. eexists. apply advance_returns_wf; try done.
      destruct (decide (upper_bound (t (self s)) u = length (t (self s))))
        as [Heq|]; [|lia].
      apply Hend in Heq. lra.
Qed.

(** ** The worked example *)

Lemma example_upper_bound : upper_bound example_t 0.5 = 1%nat.
Proof. unfold upper_bound, example_t. cbn -[Rltb]. by eval_Rltb. Qed.

Lemma example_increasing : increasing example_t.
Proof.
  intros [|[|[|i]]] x y Hx Hy; unfold example_t in *; simpl in *;
    simplify_eq; lra.
Qed.

(** The code's expression of an entry and the formula of the header. *)
Lemma forward_formula phi_k sigma_k B_k u t_k1 :
  phi_k * exp (sigma_k * B_k - sigma_k * sigma_k * u / 2)
    - sigma_k * sigma_k * (t_k1 - u) * (t_k1 - u) / 2 =
  phi_k * exp (sigma_k * B_k - sigma_k ^ 2 * u / 2)
    - sigma_k ^ 2 * (t_k1 - u) ^ 2 / 2.
Proof.
  replace (sigma_k ^ 2 * u / 2) with (sigma_k * sigma_k * u / 2) by field.
  field.
Qed.

(** The example model at [u = 0.5], for any components of the driver and
    any buffer of length 3. *)
Lemma example_advance (b b' : brownian) (r r' : rng) B_0 B_1 B_2 f0 f1 f2 :
  brownian_advance 0.5 r b = (b', r') ->
  brownian_at b' = [B_0; B_1; B_2] ->
  advance 0.5 (State (Lmm example_t example_phi example_sigma b)
                     [f0; f1; f2] r) =
  (inr 1%nat,
   State (Lmm example_t example_phi example_sigma b')
     [f0;
      0.03 * exp (0.2 * B_1 - 0.2 * 0.2 * 0.5 / 2)
        - 0.2 * 0.2 * (0 - 0.5) * (0 - 0.5) / 2;
      0.04 * exp (0.25 * B_2 - 0.25 * 0.25 * 0.5 / 2)
        - 0.25 * 0.25 * (1 - 0.5) * (1 - 0.5) / 2]
     r').
Proof.
  intros Hadv HB. unfold example_t, example_phi, example_sigma.
  run. unfold advanced. cbn. rewrite Hadv.
  repeat progress (run; rewrite ?HB). done.
Qed.

(** C5. The model [n = 3], [t = [0, 1, 2]], [phi = [0.02, 0.03, 0.04]],
    [sigma = [0, 0.2, 0.25]], advanced to [u = 0.5] by a driver that
    realizes [B = [0, 0.1, 0.05]]: the call returns [j = 1], writes
    [0.03 * exp(0.2*0.1 - 0.2^2*0.5/2) - 0.2^2*(0 - 0.5)^2/2] in [buf[1]]
    and [0.04 * exp(0.25*0.05 - 0.25^2*0.5/2) - 0.25^2*(1 - 0.5)^2/2] in
    [buf[2]], and leaves [buf[0]] as it was. *)
Theorem advance_worked_example (b b' : brownian) (r r' : rng) f0 f1 f2 :
  brownian_advance 0.5 r b = (b', r') ->
  brownian_at b' = [0; 0.1; 0.05] ->
  advance 0.5 (State (Lmm [0; 1; 2] [0.02; 0.03; 0.04] [0; 0.2; 0.25] b)
                     [f0; f1; f2] r) =
  (inr 1%nat,
   State (Lmm [0; 1; 2] [0.02; 0.03; 0.04] [0; 0.2; 0.25] b')
     [f0;
      0.03 * exp (0.2 * 0.1 - 0.2 ^ 2 * 0.5 / 2) - 0.2 ^ 2 * (0 - 0.5) ^ 2 / 2;
      0.04 * exp (0.25 * 0.05 - 0.25 ^ 2 * 0.5 / 2)
        - 0.25 ^ 2 * (1 - 0.5) ^ 2 / 2]
     r').
Proof.
  intros Hadv HB. rewrite <- !forward_formula.
  exact (example_advance b b' r r' 0 0.1 0.05 f0 f1 f2 Hadv HB).
Qed.

End RealFacts.

(** * The examples on the scripted driver *)

Section Examples.

Local Open Scope R_scope.

Lemma example_lmm_new :
  lmm_new 3 example_t example_phi example_sigma 3%nat = Some example_lmm.
Proof. reflexivity. Qed.

Lemma example_state_advance :
  advance 0.5 example_state =
  (inr 1%nat,
   State (Lmm example_t example_phi example_sigma
              (Scripted 0.5 [0; 0.1; 0.05]))
     [0;
      0.03 * exp (0.2 * 0.1 - 0.2 * 0.2 * 0.5 / 2)
        - 0.2 * 0.2 * (0 - 0.5) * (0 - 0.5) / 2;
      0.04 * exp (0.25 * 0.05 - 0.25 * 0.25 * 0.5 / 2)
        - 0.25 * 0.25 * (1 - 0.5) * (1 - 0.5) / 2]
     []).
Proof. by apply (example_advance _ _ _ _ 0 0.1 0.05). Qed.

Lemma example_state_throws :
  advance 2 example_state = (inl OutOfRange, example_state).
Proof.
  apply advance_throws. split; [|done].
  unfold upper_bound, example_state, example_lmm, example_t.
  cbn -[Rltb]. by eval_Rltb.
Qed.

Lemma narrow_state_dimension :
  length (brownian_at (B (self (advanced 0.5 narrow_state)))) = 2%nat.
Proof. reflexivity. Qed.

(** *** Instances of the theorems *)

Lemma advance_samples_forward_witness :
  exists s', advance 0.5 example_state = (inr 1%nat, s') /\
    exists B_2, brownian_at (B (self s')) !! 2%nat = Some B_2 /\
      buf s' !! 2%nat =
        Some (0.04 * exp (0.25 * B_2 - 0.25 ^ 2 * 0.5 / 2)
              - 0.25 ^ 2 * (1 - 0.5) ^ 2 / 2).
Proof.
  eexists. split; [exact example_state_advance|].
  destruct (advance_samples_forward _ _ _ _ example_state_advance)
    as [_ Hall].
  destruct (Hall 2%nat) as (phi_k & sigma_k & B_k & Hp & Hs & Hb & Hx).
  { simpl. lia. }
  destruct Hx as (t_k1 & Ht & Hx).
  exists B_k. split; [exact Hb|].
  injection Hp as <-. injection Hs as <-. injection Ht as <-. exact Hx.
Defined.

Lemma advance_returns_first_above_witness :
  exists s' t_j1 t_j, advance 0.5 example_state = (inr 1%nat, s') /\
    t_before example_t 1 = Some t_j1 /\ example_t !! 1%nat = Some t_j /\
    t_j1 <= 0.5 < t_j.
Proof.
  destruct (advance_returns_first_above 0.5 example_state 2)
    as [_ Hfirst].
  { exact example_increasing. }
  { reflexivity. }
  { lra. }
  { lra. }
  destruct (Hfirst _ _ example_state_advance)
    as (t_j1 & t_j & Hj1 & Hj & Hu & _).
  eexists _, t_j1, t_j. split; [exact example_state_advance|].
  split; [exact Hj1|]. split; [exact Hj|exact Hu].
Defined.

Lemma advance_throws_iff_past_last_witness :
  exists s', advance 2 example_state = (inl OutOfRange, s').
Proof.
  destruct (advance_throws_iff_past_last 2 example_state 2)
    as [Hthrow _].
  { exact example_increasing. }
  { reflexivity. }
  apply Hthrow. lra.
Defined.

Lemma advance_writes_from_j_witness :
  exists s', advance 0.5 example_state = (inr 1%nat, s') /\
    length (buf s') = 3%nat /\ buf s' !! 0%nat = Some 0.
Proof.
  eexists. split; [exact example_state_advance|].
  destruct (advance_writes_from_j _ _ _ _ example_state_advance)
    as (Hlen & Hbelow & _).
  split; [exact Hlen|]. apply (Hbelow 0%nat). lia.
Defined.

Lemma advance_worked_example_witness :
  advance 0.5
    (State (Lmm [0; 1; 2] [0.02; 0.03; 0.04] [0; 0.2; 0.25]
                (Scripted 0 [0; 0; 0]))
           [7; 8; 9] [[0; 0.1; 0.05]]) =
  (inr 1%nat,
   State (Lmm [0; 1; 2] [0.02; 0.03; 0.04] [0; 0.2; 0.25]
              (Scripted 0.5 [0; 0.1; 0.05]))
     [7;
      0.03 * exp (0.2 * 0.1 - 0.2 ^ 2 * 0.5 / 2) - 0.2 ^ 2 * (0 - 0.5) ^ 2 / 2;
      0.04 * exp (0.25 * 0.05 - 0.25 ^ 2 * 0.5 / 2)
        - 0.25 ^ 2 * (1 - 0.5) ^ 2 / 2]
     []).
Proof. apply advance_worked_example; reflexivity. Defined.

Lemma advance_throws_before_driver_witness :
  exists s', advance 2 example_state = (inl OutOfRange, s') /\
    B (self s') = Scripted 0 [0; 0; 0] /\
    advance 0.5 s' = advance 0.5 example_state.
Proof.
  exists example_state. split; [exact example_state_throws|].
  destruct (advance_throws_before_driver _ _ _ example_state_throws)
    as (HB & _ & Hnext & _).
  split; [exact HB|]. apply Hnext.
Defined.

Lemma advance_reads_driver_unchecked_witness :
  (upper_bound example_t 0.5%R < 3)%nat /\
  exists s', advance 0.5 narrow_state = (inl BadAccess, s').
Proof.
  assert (Hj : (upper_bound example_t 0.5%R < 3)%nat).
  { rewrite example_upper_bound. lia. }
  split; [exact Hj|].
  destruct (advance_reads_driver_unchecked 0.5 narrow_state Hj)
    as (_ & _ & Hbad).
  apply Hbad. rewrite narrow_state_dimension. simpl. lia.
Defined.

End Examples.

(** * Further properties for any numeric type *)

Section ModelSafety.

Context {F rng correlation brownian : Type}.
Context `{!Arith F} `{!Driver F rng correlation brownian}.

Local Abbreviation lmm := (lmm F brownian).
Local Abbreviation state := (state F rng brownian).
Local Abbreviation M := (M F rng brownian).

Implicit Types (s : state) (m : lmm) (u : F) (k j n : nat).

(** *** What the search brackets, ordered range or not *)

(** The two ends of the searched range keep their meaning through the
    halvings: the element before [first] does not compare above [u], the
    element at [first + len] does. *)
Lemma upper_bound_from_bracket fuel (v : list F) u first len :
  len <= fuel -> first + len <= length v ->
  (first = 0 \/ exists x, v !! (first - 1) = Some x /\ flt u x = false) ->
  (first + len = length v \/
   exists y, v !! (first + len) = Some y /\ flt u y = true) ->
  let r := upper_bound_from fuel v u first len in
  (r = 0 \/ exists x, v !! (r - 1) = Some x /\ flt u x = false) /\
  (r = length v \/ exists y, v !! r = Some y /\ flt u y = true).
Proof.
  revert first len.
  induction fuel as [|fuel IH]; intros first len Hfuel Hlen Hlo Hhi;
    cbn [upper_bound_from].
  - assert (len = 0) as -> by lia. rewrite Nat.add_0_r in Hhi. done.
  - destruct (Nat.eqb_spec len 0) as [->|Hpos].
    { rewrite Nat.add_0_r in Hhi. done. }
    pose proof (Nat.div_lt len 2 ltac:(lia) ltac:(lia)) as Hhalf.
    destruct (lookup_lt_is_Some_2 v (first + len / 2)) as [x Hx]; [lia|].
    rewrite Hx. destruct (flt u x) eqn:Hcmp.
    + apply IH; [lia|lia|done|]. right. eauto.
    + apply IH; [lia|lia| |].
      * right. exists x. split; [|done].
        by replace (S (first + len / 2) - 1) with (first + len / 2) by lia.
      * replace (S (first + len / 2) + (len - len / 2 - 1))
          with (first + len) by lia.
        done.
Qed.

Lemma upper_bound_bracket (v : list F) u :
  (upper_bound v u = 0 \/
   exists x, v !! (upper_bound v u - 1) = Some x /\ flt u x = false) /\
  (upper_bound v u = length v \/
   exists y, v !! upper_bound v u = Some y /\ flt u y = true).
Proof.
  apply upper_bound_from_bracket; [done|done|by left|by left].
Qed.

(** X2. For any term structure, ordered or not, and any numeric type, the
    index [j] that [advance] returns is a valid index of [t], [u < t[j]]
    holds, and [u < t[j-1]] fails when [j >= 1]: the note
    [tj[-1] <= u < tj[0]] of the source holds at the returned position. *)
Theorem advance_brackets_u u s j s' :
  advance u s = (inr j, s') ->
  j < length (t (self s)) /\
  (exists t_j, t (self s) !! j = Some t_j /\ flt u t_j = true) /\
  (1 <= j ->
   exists t_j1, t (self s) !! (j - 1) = Some t_j1 /\ flt u t_j1 = false).
Proof.
  intros Hrun.
  destruct (advance_returns_inv _ _ _ _ Hrun) as (-> & Hjn & _).
  destruct (upper_bound_bracket (t (self s)) u) as [Hlo Hhi].
  split; [done|]. split.
  - destruct Hhi as [Heq|Hhi]; [lia|done].
  - intros Hpos. destruct Hlo as [Heq|Hlo]; [lia|done].
Qed.

(** X3. On a model without tenors every call of [advance] throws, and the
    state stays as it is. *)
Theorem advance_empty_throws u s :
  length (t (self s)) = 0 -> advance u s = (inl OutOfRange, s).
Proof.
  intros Hn. apply advance_throws. split; [|done].
  pose proof (upper_bound_le (t (self s)) u). lia.
Qed.

(** X4. For any term structure, ordered or not, [advance] throws only
    when there is no tenor or when [u < t[n-1]] fails for the last one. *)
Theorem advance_throws_only_past_last u s s' :
  advance u s = (inl OutOfRange, s') ->
  length (t (self s)) = 0 \/
  exists t_last, last (t (self s)) = Some t_last /\ flt u t_last = false.
Proof.
  intros [Heq _]%advance_throws.
  destruct (upper_bound_bracket (t (self s)) u) as [[Hlo|Hlo] _].
  - left. lia.
  - right. destruct Hlo as (x & Hx & Hcmp). exists x. split; [|done].
    rewrite last_lookup. rewrite <- Hx. f_equal. lia.
Qed.

(** X5. On a model whose sequences have the length of [t], with a buffer
    and a driver that reach index [n-1], [advance] makes no access out of
    bounds, for any [u] and any order of [t]: it returns the index found by
    the search when there is one and throws otherwise. *)
Theorem advance_in_bounds u s :
  lmm_wf (self s) ->
  length (t (self s)) <= length (buf s) ->
  length (t (self s)) <= length (brownian_at (B (self (advanced u s)))) ->
  (forall s', advance u s <> (inl BadAccess, s')) /\
  (upper_bound (t (self s)) u < length (t (self s)) ->
   exists s', advance u s = (inr (upper_bound (t (self s)) u), s')) /\
  (upper_bound (t (self s)) u = length (t (self s)) ->
   advance u s = (inl OutOfRange, s)).
Proof.
  intros [Hphi Hsigma] Hbuf Hd.
  pose proof (upper_bound_le (t (self s)) u) as Hle.
  assert (Hret : upper_bound (t (self s)) u < length (t (self s)) ->
    exists s', advance u s = (inr (upper_bound (t (self s)) u), s')).
  { intros Hj. apply advance_returns; [done|].
    destruct (advanced_params u s) as (Ht & Hp & Hs & _ & _).
    intros i Hi. split; [|lia].
    apply forward_at_is_Some; [|rewrite Ht; lia|lia].
    split; congruence. }
  assert (Hthrow : upper_bound (t (self s)) u = length (t (self s)) ->
    advance u s = (inl OutOfRange, s)).
  { intros Heq. by apply advance_throws. }
  split; [|done]. intros s' Hbad.
  destruct (decide (upper_bound (t (self s)) u = length (t (self s))))
    as [Heq|Hne].
  - rewrite (Hthrow Heq) in Hbad. discriminate.
  - destruct Hret as [s1 Hs1]; [lia|]. rewrite Hs1 in Hbad. discriminate.
Qed.

(** X6. [advance] writes [f_[k]] up to [k = n-1] without knowing the
    length of the buffer: a call that returns had a buffer of at least [n]
    entries, and when the search succeeds on a shorter buffer the call runs
    into an access out of bounds. *)
Theorem advance_needs_buffer u s :
  (forall j s', advance u s = (inr j, s') ->
     length (t (self s)) <= length (buf s)) /\
  (upper_bound (t (self s)) u < length (t (self s)) ->
   length (buf s) < length (t (self s)) ->
   exists s', advance u s = (inl BadAccess, s')).
Proof.
  assert (Hret : forall j s', advance u s = (inr j, s') ->
    length (t (self s)) <= length (buf s)).
  { intros j s' Hrun.
    destruct (advance_returns_inv _ _ _ _ Hrun)
      as (_ & Hjn & _ & _ & _ & Hin & _).
    destruct (Hin (length (t (self s)) - 1)) as [_ Hlt]; lia. }
  split; [done|]. intros Hj Hshort.
  destruct (advance u s) as [[e|j'] s'] eqn:Hrun.
  - exists s'. destruct e; [|done].
    apply advance_throws in Hrun as [Heq _]. lia.
  - specialize (Hret _ _ eq_refl). lia.
Qed.

(** X1. A model built by [lmm(n, t, phi, sigma, e)] has [n] tenors and
    sequences [phi] and [sigma] of that length, and [size] answers [n] on
    it, also after [reset] and after [advance], whatever the outcome of
    [advance]. *)
Theorem lmm_new_size n t0 phi0 sigma0 (e : correlation) m (f : list F)
    (r : rng) :
  lmm_new n t0 phi0 sigma0 e = Some m ->
  lmm_wf m /\
  (size (State m f r)).1 = inr n /\
  (size (reset (State m f r)).2).1 = inr n /\
  (forall u, (size (advance u (State m f r)).2).1 = inr n).
Proof.
  intros Hnew. unfold lmm_new in Hnew.
  destruct (_ && _) eqn:Hlen; [|done]. simplify_eq.
  apply andb_prop in Hlen as [[Ht Hphi]%andb_prop Hsigma].
  apply Nat.leb_le in Ht, Hphi, Hsigma.
  unfold lmm_wf, size. simpl. rewrite !length_take.
  split; [lia|]. split; [f_equal; lia|]. split; [f_equal; lia|].
  intros u.
  destruct (keeps_params_advance u
    (State (Lmm (take n t0) (take n phi0) (take n sigma0) (brownian_new e))
           f r)) as (-> & _).
  simpl. rewrite length_take. f_equal. lia.
Qed.

End ModelSafety.

(** * Further properties over the real numbers *)

Section RealPaths.

Context {rng correlation brownian : Type}.
Context `{!Driver R rng correlation brownian}.

Local Abbreviation lmm := (lmm R brownian).
Local Abbreviation state := (state R rng brownian).
Local Abbreviation M := (M R rng brownian).

Implicit Types (s : state) (m : lmm) (u : R) (k j n : nat) (v : list R).

Local Open Scope R_scope.

Lemma upper_bound_mono v u u' :
  increasing v -> u <= u' -> (upper_bound v u <= upper_bound v u')%nat.
Proof.
  intros Hinc Hu.
  destruct (upper_bound_increasing v u Hinc) as [Hlo _].
  destruct (upper_bound_increasing v u' Hinc) as [_ Hhi'].
  pose proof (upper_bound_le v u) as Hle.
  destruct (decide (upper_bound v u <= upper_bound v u')%nat); [done|].
  destruct (lookup_lt_is_Some_2 v (upper_bound v u')) as [x Hx]; [lia|].
  assert (x <= u) by (eapply Hlo; [|exact Hx]; lia).
  assert (u' < x) by (eapply Hhi'; [|exact Hx]; lia).
  lra.
Qed.

(** At [u = t[k]] the search passes [k]: the comparison is strict. *)
Lemma upper_bound_at_element v u k :
  increasing v -> v !! k = Some u -> upper_bound v u = S k.
Proof.
  intros Hinc Hk.
  destruct (upper_bound_increasing v u Hinc) as [Hlo Hhi].
  pose proof (upper_bound_le v u) as Hle.
  pose proof (lookup_lt_Some _ _ _ Hk) as Hkn.
  assert (k < upper_bound v u)%nat.
  { destruct (decide (k < upper_bound v u)%nat); [done|].
    assert (u < u) by (eapply Hhi; [|exact Hk]; lia). lra. }
  assert (upper_bound v u <= S k)%nat; [|lia].
  destruct (decide (upper_bound v u <= S k)%nat); [done|].
  destruct (lookup_lt_is_Some_2 v (S k)) as [y Hy]; [lia|].
  assert (y <= u) by (eapply Hlo; [|exact Hy]; lia).
  specialize (Hinc k u y Hk Hy). lra.
Qed.

(** X7. Walking a path: on an increasing term structure, a call at [u]
    that returns [j] followed by a call at [u' >= u] that returns [j'] has
    [j <= j']; the second call runs the driver on from the state the first
    one left, and keeps every entry below [j'], so the entries [j .. j'-1]
    still hold what the first call sampled. *)
Theorem advance_twice u u' s j s1 j' s2 :
  increasing (t (self s)) -> u <= u' ->
  advance u s = (inr j, s1) -> advance u' s1 = (inr j', s2) ->
  (j <= j')%nat /\
  (forall k, (k < j')%nat -> buf s2 !! k = buf s1 !! k) /\
  (B (self s1), src s1) = brownian_advance u (src s) (B (self s)) /\
  (B (self s2), src s2) = brownian_advance u' (src s1) (B (self s1)).
Proof.
  intros Hinc Hu Hrun1 Hrun2.
  destruct (advance_returns_inv _ _ _ _ Hrun1)
    as (-> & _ & Hself1 & Hsrc1 & _).
  destruct (advance_returns_inv _ _ _ _ Hrun2)
    as (-> & _ & Hself2 & Hsrc2 & _ & _ & Hbuf2).
  destruct (advanced_params u s) as (Ht1 & _ & _ & _ & HB1).
  destruct (advanced_params u' s1) as (_ & _ & _ & _ & HB2).
  rewrite <- Hself1, <- Hsrc1 in HB1. rewrite <- Hself2, <- Hsrc2 in HB2.
  rewrite <- Hself1 in Ht1. rewrite Ht1 in Hbuf2 |- *.
  split; [by apply upper_bound_mono|]. split; [|done].
  intros k Hk. rewrite Hbuf2. rewrite decide_False; [done|]. lia.
Qed.

(** X8. At a reset date [u = t[k]] of an increasing term structure the
    comparison is strict, so tenor [k] counts as fixed: the search stops at
    [k + 1], a call that returns returns [k + 1], and at the last date
    [k = n - 1] the call throws and leaves the state as it is. *)
Theorem advance_at_reset_date u s k :
  increasing (t (self s)) -> t (self s) !! k = Some u ->
  upper_bound (t (self s)) u = S k /\
  (forall j s', advance u s = (inr j, s') -> j = S k) /\
  (S k = length (t (self s)) -> advance u s = (inl OutOfRange, s)).
Proof.
  intros Hinc Hk.
  pose proof (upper_bound_at_element _ _ _ Hinc Hk) as Hub.
  split; [done|]. split.
  - intros j s' Hrun.
    destruct (advance_returns_inv _ _ _ _ Hrun) as (Hj & _).
    congruence.
  - intros Hn. apply advance_throws. split; [congruence|done].
Qed.

End RealPaths.

(** * Further examples on the scripted driver *)

Section PathExamples.

Local Open Scope R_scope.

Lemma unsorted_state_advance :
  exists s', advance 3 unsorted_state = (inr 1%nat, s').
Proof.
  eexists. unfold unsorted_state, example_phi, example_sigma.
  run. unfold advanced. by run.
Qed.

Lemma example_state_advance_again :
  exists s1 s2, advance 0.5 example_state = (inr 1%nat, s1) /\
                advance 1.5 s1 = (inr 2%nat, s2).
Proof.
  eexists _, _. split; [exact example_state_advance|].
  unfold example_t, example_phi, example_sigma.
  run. unfold advanced. by run.
Qed.

Lemma lmm_new_size_witness :
  (size (State example_lmm [] [[0; 0.1; 0.05]])).1 = inr 3%nat /\
  (size (advance 0.5 (State example_lmm [] [[0; 0.1; 0.05]])).2).1
    = inr 3%nat.
Proof.
  destruct (lmm_new_size 3 example_t example_phi example_sigma 3%nat
              example_lmm [] [[0; 0.1; 0.05]] example_lmm_new)
    as (_ & Hsize & _ & Hadv).
  split; [exact Hsize|exact (Hadv 0.5)].
Defined.

Lemma advance_brackets_u_witness :
  exists s' t_j, advance 3 unsorted_state = (inr 1%nat, s') /\
    [1; 5; 0] !! 1%nat = Some t_j /\ Rltb 3 t_j = true.
Proof.
  destruct unsorted_state_advance as [s' Hs'].
  destruct (advance_brackets_u _ _ _ _ Hs') as (_ & (t_j & Hj & Hcmp) & _).
  exists s', t_j. split; [exact Hs'|]. split; [exact Hj|exact Hcmp].
Defined.

Lemma advance_empty_throws_witness :
  advance 7 empty_state = (inl OutOfRange, empty_state).
Proof. apply advance_empty_throws. reflexivity. Defined.

Lemma advance_throws_only_past_last_witness :
  length example_t = 0%nat \/
  exists t_last, last example_t = Some t_last /\ Rltb 2 t_last = false.
Proof.
  exact (advance_throws_only_past_last _ _ _ example_state_throws).
Defined.

Lemma advance_in_bounds_witness :
  exists s', advance 0.5 example_state = (inr 1%nat, s').
Proof.
  destruct (advance_in_bounds 0.5 example_state) as (_ & Hret & _).
  { split; reflexivity. }
  { simpl. lia. }
  { simpl. lia. }
  rewrite <- example_upper_bound. apply Hret.
  change (t (self example_state)) with example_t.
  rewrite example_upper_bound. simpl. lia.
Defined.

Lemma advance_needs_buffer_witness :
  exists s', advance 0.5 short_state = (inl BadAccess, s').
Proof.
  destruct (advance_needs_buffer 0.5 short_state) as [_ Hbad].
  apply Hbad.
  - change (t (self short_state)) with example_t.
    rewrite example_upper_bound. simpl. lia.
  - simpl. lia.
Defined.

Lemma advance_twice_witness :
  exists s1 s2, advance 0.5 example_state = (inr 1%nat, s1) /\
    advance 1.5 s1 = (inr 2%nat, s2) /\
    buf s2 !! 1%nat = buf s1 !! 1%nat.
Proof.
  destruct example_state_advance_again as (s1 & s2 & Hs1 & Hs2).
  exists s1, s2. split; [exact Hs1|]. split; [exact Hs2|].
  destruct (advance_twice 0.5 1.5 example_state 1 s1 2 s2)
    as (_ & Hkeep & _).
  { exact example_increasing. }
  { lra. }
  { exact Hs1. }
  { exact Hs2. }
  apply Hkeep. lia.
Defined.

Lemma advance_at_reset_date_witness :
  upper_bound example_t 1 = 2%nat /\
  advance 2 example_state = (inl OutOfRange, example_state).
Proof.
  destruct (advance_at_reset_date 1 example_state 1) as [Hub _].
  { exact example_increasing. }
  { reflexivity. }
  split; [exact Hub|].
  destruct (advance_at_reset_date 2 example_state 2) as (_ & _ & Hthrow).
  { exact example_increasing. }
  { reflexivity. }
  apply Hthrow. reflexivity.
Defined.

End PathExamples.

(** * Overflow and NaN on binary64 *)

Section Binary64.

#[local] Set Warnings "-inexact-float".

Local Open Scope float_scope.

Lemma float_sub_nan x : x - nan = nan.
Proof.
  apply Prim2SF_inj. rewrite sub_spec.
  change (Prim2SF nan) with S754_nan.
  unfold SF64sub, SFsub. by destruct (Prim2SF x).
Qed.

Lemma float_leb_nan x : (nan <=? x) = false.
Proof. rewrite leb_spec. reflexivity. Qed.


(** C7, as it was stated, fails on binary64.  In the worked example with
    [sigma[2] = 1e200], at [u = t[1] = 1], the call returns [j = 2]; the
    square of [sigma[2]] overflows to [+inf] while [t[1] - u] is 0, the
    correction [inf * 0 * 0 / 2] is NaN and so is the value written, and
    NaN is not less than or equal to the futures quote, whatever [exp]
    returns. *)
Lemma overflowing_volatility_writes_nan :
  sigma (self steep_state) !! 2%nat = Some 1e200 /\
  (1e200 =? 0) = false /\
  forall exp_d, exists s' futures,
    advance_f64 exp_d 1 steep_state = (inr 2%nat, s') /\
    futures = 0.04 * exp_d (1e200 * 0.05 - 1e200 * 1e200 * 1 / 2) /\
    buf s' !! 2%nat = Some nan /\
    (nan <=? futures) = false.
Proof.
  do 2 (split; [reflexivity|]). intros exp_d. eexists _, _.
  split; [|split; [reflexivity|split; [|apply float_leb_nan]]].
  - unfold advance_f64. vm_compute. rewrite float_sub_nan. reflexivity.
  - reflexivity.
Qed.

End Binary64.

(** * Overflow and NaN in IEEE 754 arithmetic *)

Lemma Rleb_true (x y : R) : (x <= y)%R -> Rleb x y = true.
Proof. intros. unfold Rleb. by apply bool_decide_eq_true_2. Qed.

Lemma Rleb_false (x y : R) : (y < x)%R -> Rleb x y = false.
Proof. intros. unfold Rleb. apply bool_decide_eq_false_2. lra. Qed.

Lemma Rleb_spec (x y : R) : reflect (x <= y)%R (Rleb x y).
Proof. unfold Rleb. apply bool_decide_reflect. Qed.

Section IEEEFacts.

Context `{!Format}.
Context {rng correlation brownian : Type}.
Context `{!Driver ieee rng correlation brownian}.

Local Abbreviation lmm := (lmm ieee brownian).
Local Abbreviation state := (state ieee rng brownian).

Implicit Types (s : state) (u a b c : ieee) (k j n : nat) (x y : R).

Local Open Scope R_scope.

(** *** Rounding and overflow *)

Lemma big_pos : 0 < big.
Proof. pose proof big_ge_1. lra. Qed.

Lemma overflow_cases x :
  (overflow x = IFin (rnd x) /\ Rabs (rnd x) <= big) \/
  (overflow x = IInf (Rltb x 0) /\ big < Rabs (rnd x)).
Proof.
  unfold overflow. destruct (Rleb_spec (Rabs (rnd x)) big); [by left|].
  right. split; [done|lra].
Qed.

Lemma overflow_value x :
  rnd x = x -> Rabs x <= big -> overflow x = IFin x.
Proof.
  intros Hx Hb. unfold overflow. rewrite Hx. by rewrite Rleb_true.
Qed.

Lemma overflow_0 : overflow 0 = IFin 0.
Proof.
  apply overflow_value; [apply rnd_0|].
  rewrite Rabs_R0. pose proof big_pos. lra.
Qed.

Lemma overflow_1 : overflow 1 = IFin 1.
Proof.
  apply overflow_value; [apply rnd_1|].
  rewrite Rabs_R1. apply big_ge_1.
Qed.

Lemma overflow_is_value x : is_value (overflow x).
Proof.
  destruct (overflow_cases x) as [[-> Hb]|[-> _]]; [|done].
  split; [apply rnd_idem|done].
Qed.

Lemma rnd_nonneg x : 0 <= x -> 0 <= rnd x.
Proof. intros Hx. rewrite <- rnd_0. by apply rnd_mono. Qed.

Lemma rnd_nonpos x : x <= 0 -> rnd x <= 0.
Proof. intros Hx. rewrite <- rnd_0. by apply rnd_mono. Qed.

Lemma overflow_nonneg x : 0 <= x -> nonneg_or_nan (overflow x).
Proof.
  intros Hx. destruct (overflow_cases x) as [[-> _]|[-> _]]; simpl.
  - by apply rnd_nonneg.
  - apply Rltb_false. lra.
Qed.

(** *** Products with zero *)

Lemma finite_dec a : {finite a} + {~ finite a}.
Proof. destruct a; simpl; [right; tauto|right; tauto|by left]. Qed.

Lemma mul_zero_l b :
  (finite b -> ieee_mul (IFin 0) b = IFin 0) /\
  (~ finite b -> ieee_mul (IFin 0) b = INan).
Proof.
  destruct b as [|s'|y]; simpl.
  - by split.
  - rewrite decide_True by done. by split.
  - rewrite Rmult_0_l, overflow_0. by split.
Qed.

Lemma mul_nan_l b : ieee_mul INan b = INan.
Proof. by destruct b. Qed.

Lemma mul_nan_r a : ieee_mul a INan = INan.
Proof. by destruct a. Qed.

Lemma sub_nan_r a : ieee_sub a INan = INan.
Proof. by destruct a. Qed.

Lemma div_zero_two : ieee_div (IFin 0) (IFin 2) = IFin 0.
Proof.
  simpl. rewrite decide_False by lra.
  replace (0 / 2) with 0 by lra. apply overflow_0.
Qed.

Lemma sub_zero_zero : ieee_sub (IFin 0) (IFin 0) = IFin 0.
Proof. simpl. rewrite Rminus_0_r. apply overflow_0. Qed.

Lemma mul_one_r a : is_value a -> ieee_mul a (IFin 1) = a.
Proof.
  destruct a as [|s'|x]; simpl; [done| |].
  - intros _. rewrite decide_False by lra.
    rewrite Rltb_false by lra. by rewrite xorb_false_r.
  - intros [Hx Hb]. rewrite Rmult_1_r. by apply overflow_value.
Qed.

Lemma sub_zero_r a : is_value a -> ieee_sub a (IFin 0) = a.
Proof.
  destruct a as [|s'|x]; simpl; [done|done|].
  intros [Hx Hb]. rewrite Rminus_0_r. by apply overflow_value.
Qed.

Lemma exp_zero : ieee_exp (IFin 0) = IFin 1.
Proof. simpl. rewrite exp_fl_0. apply overflow_1. Qed.

(** With [sigma[k] = 0] the exponent [sigma*B - sigma*sigma*u/2] is 0
    when [B] and [u] are finite, and NaN otherwise. *)
Lemma zero_sigma_exponent b u :
  let e := (IFin 0 * b - IFin 0 * IFin 0 * u / ftwo)%num in
  (finite b /\ finite u -> e = IFin 0) /\
  (~ (finite b /\ finite u) -> e = INan).
Proof.
  cbn [fmul fsub fdiv ftwo ieee_arith]. cbv zeta.
  destruct (mul_zero_l (IFin 0)) as [Hzz _]. rewrite (Hzz I).
  destruct (mul_zero_l b) as [Hb Hb'], (mul_zero_l u) as [Hu Hu'].
  destruct (finite_dec b) as [Hfb|Hfb].
  - rewrite (Hb Hfb). destruct (finite_dec u) as [Hfu|Hfu].
    + rewrite (Hu Hfu), div_zero_two, sub_zero_zero. split; [done|tauto].
    + rewrite (Hu' Hfu). cbn [ieee_div ieee_sub]. split; [tauto|done].
  - rewrite (Hb' Hfb). split; [tauto|done].
Qed.

(** With [sigma[k] = 0] the correction [sigma*sigma*dt*dt/2] is 0 when
    [dt] is finite, and NaN otherwise. *)
Lemma zero_sigma_correction dt :
  let c := (IFin 0 * IFin 0 * dt * dt / ftwo)%num in
  (finite dt -> c = IFin 0) /\ (~ finite dt -> c = INan).
Proof.
  cbn [fmul fsub fdiv ftwo ieee_arith]. cbv zeta.
  destruct (mul_zero_l (IFin 0)) as [Hzz _]. rewrite (Hzz I).
  destruct (mul_zero_l dt) as [Hd Hd'].
  destruct (finite_dec dt) as [Hf|Hf].
  - rewrite !(Hd Hf), div_zero_two. by split.
  - rewrite (Hd' Hf), mul_nan_l. cbn [ieee_div]. by split.
Qed.

(** With [sigma[k] = 0] the futures quote [phi * exp(...)] is [phi] when
    [B] and [u] are finite, and NaN otherwise. *)
Lemma zero_sigma_futures phi_k b u :
  is_value phi_k ->
  let futures :=
    (phi_k * fexp (IFin 0 * b - IFin 0 * IFin 0 * u / ftwo))%num in
  (finite b /\ finite u -> futures = phi_k) /\
  (~ (finite b /\ finite u) -> futures = INan).
Proof.
  intros Hphi. cbv zeta.
  destruct (zero_sigma_exponent b u) as [Hfin Hnan].
  split; intros Hbu.
  - rewrite (Hfin Hbu). cbn [fmul fexp ieee_arith].
    by rewrite exp_zero, mul_one_r.
  - rewrite (Hnan Hbu). cbn [fmul fexp ieee_arith ieee_exp].
    by rewrite mul_nan_r.
Qed.


(** *** The sign of the correction *)

Lemma mul_is_value a b : is_value (ieee_mul a b).
Proof.
  destruct a as [|sa|x], b as [|sb|y]; simpl; try done.
  - by case_decide.
  - by case_decide.
  - apply overflow_is_value.
Qed.

Lemma mul_self_nonneg a : nonneg_or_nan (ieee_mul a a).
Proof.
  destruct a as [|sa|x]; simpl; [done|by destruct sa|].
  apply overflow_nonneg. nra.
Qed.

(** [q * d * d] is not negative when [q] is not: the sign of [d] comes in
    twice. *)
Lemma mul_mul_nonneg q d :
  nonneg_or_nan q -> nonneg_or_nan (ieee_mul (ieee_mul q d) d).
Proof.
  destruct q as [|sq|x], d as [|sd|y]; simpl; try done.
  - intros ->. by destruct sd.
  - intros ->. case_decide as Hy; [done|]. simpl.
    rewrite decide_False by done. by destruct (Rltb y 0).
  - intros Hx. case_decide as Hx0; [done|]. simpl.
    rewrite Rltb_false by lra. by destruct sd.
  - intros Hx.
    destruct (overflow_cases (x * y)) as [[-> Hb]|[-> Hb]]; simpl.
    + apply overflow_nonneg.
      destruct (Rle_lt_dec 0 y) as [Hy|Hy].
      * pose proof (rnd_nonneg (x * y) ltac:(nra)). nra.
      * pose proof (rnd_nonpos (x * y) ltac:(nra)). nra.
    + assert (Hxy : x * y <> 0).
      { intros Heq. rewrite Heq, rnd_0, Rabs_R0 in Hb.
        pose proof big_pos. lra. }
      assert (Hy0 : y <> 0) by (intros ->; lra).
      rewrite decide_False by done.
      destruct (Rle_lt_dec 0 y) as [Hy|Hy].
      * rewrite (Rltb_false y) by done.
        rewrite Rltb_false by nra. done.
      * rewrite (Rltb_true y) by done.
        rewrite Rltb_true by nra. done.
Qed.

Lemma div_two_nonneg c :
  nonneg_or_nan c -> nonneg_or_nan (ieee_div c (IFin 2)).
Proof.
  destruct c as [|sc|x]; simpl; [done| |].
  - intros ->. by rewrite Rltb_false by lra.
  - intros Hx. rewrite decide_False by lra.
    apply overflow_nonneg. lra.
Qed.

(** The correction [sigma*sigma*dt*dt/2] is NaN, [+inf] or a number that
    is not negative. *)
Lemma correction_nonneg sigma_k dt :
  nonneg_or_nan (sigma_k * sigma_k * dt * dt / ftwo)%num.
Proof.
  cbn [fmul fdiv ftwo ieee_arith].
  apply div_two_nonneg, mul_mul_nonneg, mul_self_nonneg.
Qed.

(** Taking off an amount that is not negative does not raise a value of
    the format: the difference is NaN or at most the value. *)
Lemma sub_nonneg_le a c :
  is_value a -> nonneg_or_nan c ->
  ieee_sub a c = INan \/ ieee_leb (ieee_sub a c) a = true.
Proof.
  destruct a as [|sa|x], c as [|sc|y]; simpl; try (by left).
  - intros _ ->. destruct sa; [by right|by left].
  - intros _ _. right. by destruct sa.
  - intros _ ->. by right.
  - intros [Hx Hb] Hy. right.
    assert (Hle : rnd (x - y) <= x).
    { rewrite <- Hx at 2. apply rnd_mono. lra. }
    destruct (overflow_cases (x - y)) as [[-> _]|[-> Hover]]; simpl.
    + by apply Rleb_true.
    + apply Rltb_true.
      destruct (Rle_lt_dec 0 (x - y)) as [Hpos|]; [|done].
      pose proof (rnd_nonneg _ Hpos) as Hr.
      rewrite Rabs_pos_eq in Hover by done.
      pose proof (Rle_abs x). lra.
Qed.

(** The correction is NaN when the square of [sigma] overflows while
    [dt] is 0. *)
Lemma correction_nan x :
  big < Rabs (rnd (x * x)) ->
  (IFin x * IFin x * IFin 0 * IFin 0 / ftwo)%num = INan.
Proof.
  intros Hover. cbn [fmul fdiv ftwo ieee_arith ieee_mul].
  destruct (overflow_cases (x * x)) as [[_ Hb]|[-> _]]; [lra|].
  cbn [ieee_mul]. by rewrite decide_True by done.
Qed.

(** C7, as the code has it.  After a call that returns [j], every entry
    [k >= 1] in [j .. n-1] is NaN or at most the futures quote
    [phi[k] * exp(sigma[k] * B[k] - sigma[k]^2 * u / 2)] it was corrected
    from, for [sigma[k] <> 0] and for [sigma[k] = 0] alike: the correction
    is never negative, but it is NaN, and so is the entry, when
    [sigma[k]^2] overflows while [t[k-1] - u] is 0. *)
Theorem forward_le_futures_or_nan u s j s' k :
  advance u s = (inr j, s') ->
  (Nat.max j 1 <= k <= length (t (self s)) - 1)%nat ->
  exists phi_k sigma_k B_k t_k1 forward,
    phi (self s) !! k = Some phi_k /\
    sigma (self s) !! k = Some sigma_k /\
    brownian_at (B (self s')) !! k = Some B_k /\
    t (self s) !! (k - 1)%nat = Some t_k1 /\
    buf s' !! k = Some forward /\
    let futures :=
      (phi_k * fexp (sigma_k * B_k - sigma_k * sigma_k * u / ftwo))%num in
    (forward = INan \/ ieee_leb forward futures = true) /\
    (forall x, sigma_k = IFin x -> big < Rabs (rnd (x * x)) ->
       (t_k1 - u)%num = IFin 0 -> forward = INan).
Proof.
  intros Hrun Hk.
  pose proof (advance_returns_inv _ _ _ _ Hrun) as (_ & Hjn & _).
  destruct (advance_entry u s j s' k Hrun ltac:(lia))
    as (phi_k & sigma_k & B_k & Hp & Hs & Hb & Hx).
  cbv zeta in Hx. destruct k as [|k1]; [lia|].
  destruct Hx as (t_k1 & Ht & Hx).
  eexists phi_k, sigma_k, B_k, t_k1, _. do 3 (split; [done|]).
  replace (S k1 - 1)%nat with k1 by lia.
  split; [done|]. split; [exact Hx|]. cbv zeta. split.
  - cbn [fsub ieee_arith]. apply sub_nonneg_le.
    + cbn [fmul ieee_arith]. apply mul_is_value.
    + apply correction_nonneg.
  - intros x -> Hover ->. rewrite (correction_nan x Hover).
    cbn [fsub ieee_arith]. apply sub_nan_r.
Qed.

End IEEEFacts.

(** * Examples in IEEE 754 arithmetic *)

Section IEEEExamples.

Local Open Scope R_scope.

Lemma ieee_state_advance :
  exists s', advance (IFin 0) ieee_state = (inr 0%nat, s') /\
    brownian_at (B (self s')) = [IFin 0.3; IFin 0.1; IFin 0.05].
Proof.
  assert (Hub : upper_bound (t (self ieee_state)) (IFin 0) = 0%nat).
  { unfold upper_bound, ieee_state. cbn -[Rltb]. by eval_Rltb. }
  destruct (advance_returns (IFin 0) ieee_state) as [s' Hs'].
  { rewrite Hub. simpl. lia. }
  { intros i Hi. split; [|simpl in *; lia].
    apply forward_at_is_Some; [by split|simpl in *; lia..]. }
  rewrite Hub in Hs'. exists s'. split; [done|].
  by destruct (advance_returns_inv _ _ _ _ Hs') as (_ & _ & -> & _).
Qed.


Lemma forward_le_futures_or_nan_witness :
  exists s' forward, advance (IFin 0) ieee_state = (inr 0%nat, s') /\
    buf s' !! 2%nat = Some forward /\
    (forward = INan \/
     ieee_leb forward
       (IFin 0.04 * fexp (IFin 0.25 * IFin 0.05
                          - IFin 0.25 * IFin 0.25 * IFin 0 / ftwo))%num
     = true).
Proof.
  destruct ieee_state_advance as (s' & Hs' & HB).
  destruct (forward_le_futures_or_nan _ _ _ _ 2 Hs')
    as (phi_k & sigma_k & B_k & t_k1 & forward
        & Hp & Hs & Hb & _ & Hf & Hle & _).
  { simpl. lia. }
  exists s', forward. split; [exact Hs'|]. split; [exact Hf|].
  rewrite HB in Hb.
  injection Hp as <-. injection Hs as <-. injection Hb as <-. exact Hle.
Defined.

End IEEEExamples.
